(** * Modified-Leitner flashcard scheduler: PS1/src/algorithm.ts

    A shallow embedding of the five exported functions of [algorithm.ts]
    ([toBucketSets], [getBucketRange], [practice], [update], [getHint]) and
    the properties stated about them.

    JavaScript [Set] objects are mutable and are shared by reference between
    a [Map], its shallow copy and the arrays built from it, so they live in an
    explicit store; a [Map] and an [Array] are sequences of references into
    that store. *)

From Stdlib Require Import ZArith NArith String Ascii.
From stdpp Require Import list gmap.

Local Open Scope Z_scope.

(** ** JavaScript strings: sequences of UTF-16 code units *)

Module JsString.

Abbreviation code_unit := N.
Abbreviation t := (list N).

(** A literal of the source, all of whose characters are ASCII. *)
Definition lit (s : string) : t := N_of_ascii <$> list_ascii_of_string s.

(** ECMAScript WhiteSpace and LineTerminator code points, the ones
    [String.prototype.trim] strips: TAB, LF, VT, FF, CR, SP, NBSP, the
    Unicode Zs category, LS, PS and ZWNBSP. *)
Definition is_white_space (u : code_unit) : bool :=
  ((9 <=? u) && (u <=? 13) || (u =? 32) || (u =? 160) || (u =? 5760)
   || (8192 <=? u) && (u <=? 8202) || (u =? 8232) || (u =? 8233)
   || (u =? 8239) || (u =? 8287) || (u =? 12288) || (u =? 65279))%N.

Fixpoint trimStart (s : t) : t :=
  match s with
  | [] => []
  | u :: s' => if is_white_space u then trimStart s' else s
  end.

Fixpoint trimEnd (s : t) : t :=
  match s with
  | [] => []
  | u :: s' =>
      match trimEnd s' with
      | [] => if is_white_space u then [] else [u]
      | r => u :: r
      end
  end.

(** [s.trim()] *)
Definition trim (s : t) : t := trimEnd (trimStart s).

(** [a || b] on strings: the empty string is the one falsy string. *)
Definition or_else (a b : t) : t :=
  match a with [] => b | _ => a end.

End JsString.

(** ** flashcards.ts *)

(** Modelled from the spec: [flashcards.ts] is not among the sources. The
    spec's data model gives a Flashcard the fields front, back, hint and tags,
    and three answer difficulties. *)
Record Flashcard := mkFlashcard {
  front : JsString.t;
  back : JsString.t;
  hint : JsString.t;
  tags : list JsString.t
}.

Inductive AnswerDifficulty := Wrong | Hard | Easy.

(** A [Set<Flashcard>] holds object references and compares them by identity:
    its elements are modelled by the references. *)
Abbreviation FlashcardRef := positive.

(** ** The store of [Set] objects *)

Abbreviation loc := nat.
Abbreviation cardset := (gset positive).
Abbreviation heap := (list (gset positive)).

(** The contents of the Set at [l]; a reference of a running program always
    denotes a live object, an unallocated one reads as empty here. *)
Definition Set_at (h : heap) (l : loc) : cardset := default ∅ (h !! l).

(** [s.has(card)] *)
Definition Set_has (h : heap) (l : loc) (card : FlashcardRef) : bool :=
  bool_decide (card ∈ Set_at h l).

(** [s.size] *)
Definition Set_size (h : heap) (l : loc) : Z := Z.of_nat (size (Set_at h l)).

Inductive Error := mkError (message : string).

Inductive result (A : Type) :=
| Ok (a : A) (h : heap)
| Throw (e : Error).
Arguments Ok {A} a h.
Arguments Throw {A} e.

(** Computations that read and write the store and may throw. *)
Definition M (A : Type) : Type := heap → result A.

#[global] Instance M_ret : MRet M := λ A a h, Ok a h.
#[global] Instance M_bind : MBind M := λ A B f c h,
  match c h with
  | Ok a h' => f a h'
  | Throw e => Throw e
  end.

Definition throw {A} (e : Error) : M A := λ _, Throw e.
Definition get_heap : M heap := λ h, Ok h h.

(** [new Set()] *)
Definition Set_new : M loc := λ h, Ok (length h) (h ++ [∅]).

(** [s.add(card)] *)
Definition Set_add (l : loc) (card : FlashcardRef) : M unit :=
  λ h, Ok () (alter (λ s, {[card]} ∪ s) l h).

(** [s.delete(card)] *)
Definition Set_delete (l : loc) (card : FlashcardRef) : M unit :=
  λ h, Ok () (alter (λ s, s ∖ {[card]}) l h).

(** A statement-level loop over the elements of a list. *)
Fixpoint forM_ {A} (xs : list A) (body : A → M unit) : M unit :=
  match xs with
  | [] => mret ()
  | x :: xs' => _ ← body x; forM_ xs' body
  end.

(** A loop that carries a local variable through its iterations. *)
Fixpoint foldM {A B} (f : B → A → M B) (b : B) (xs : list A) : M B :=
  match xs with
  | [] => mret b
  | x :: xs' => b' ← f b x; foldM f b' xs'
  end.

(** [s.forEach(f)] *)
Definition Set_forEach (l : loc) (f : FlashcardRef → M unit) : M unit :=
  h ← get_heap; forM_ (elements (Set_at h l)) f.

(** [o?.m(...)] on a possibly undefined receiver. *)
Definition opt_call (o : option loc) (m : loc → M unit) : M unit :=
  match o with
  | Some l => m l
  | None => mret ()
  end.

(** ** [Map<number, Set<Flashcard>>]

    The entries of a JavaScript Map in insertion order; a key occurs once. *)

Abbreviation BucketMap := (list (Z * nat)).

Definition Map_keys (m : BucketMap) : list Z := m.*1.
Definition Map_size (m : BucketMap) : Z := Z.of_nat (length m).

Fixpoint Map_get (m : BucketMap) (k : Z) : option loc :=
  match m with
  | [] => None
  | (k', v) :: m' => if decide (k' = k) then Some v else Map_get m' k
  end.

Definition Map_has (m : BucketMap) (k : Z) : bool :=
  bool_decide (is_Some (Map_get m k)).

(** [m.set(k, v)]: an existing key keeps its place, a new one goes last. *)
Fixpoint Map_set (m : BucketMap) (k : Z) (v : loc) : BucketMap :=
  match m with
  | [] => [(k, v)]
  | (k', v') :: m' =>
      if decide (k' = k) then (k, v) :: m' else (k', v') :: Map_set m' k v
  end.

(** [new Map(entries)]: a new Map that holds the same Set references. *)
Definition Map_new (entries : list (Z * loc)) : BucketMap :=
  foldl (λ m e, Map_set m e.1 e.2) [] entries.

(** [xs.find(p)] *)
Fixpoint Array_find {A} (p : A → bool) (xs : list A) : option A :=
  match xs with
  | [] => None
  | x :: xs' => if p x then Some x else Array_find p xs'
  end.

(** [Math.max(x, ...xs)] and [Math.min(x, ...xs)] of a non-empty argument list. *)
Definition Math_max (x : Z) (xs : list Z) : Z := foldl Z.max x xs.
Definition Math_min (x : Z) (xs : list Z) : Z := foldl Z.min x xs.

(** ** algorithm.ts *)

(** [toBucketSets], lines 21-30. *)
Definition toBucketSets (buckets : BucketMap) : M (list loc) :=
  let maxBucket :=
    match Map_keys buckets with
    | [] => -1
    | k :: ks => Math_max k ks
    end in
  foldM (λ bucketArray i,
           s ← match Map_get buckets i with
               | Some s => mret s
               | None => Set_new
               end;
           mret (bucketArray ++ [s]))
        [] (seqZ 0 (maxBucket + 1)).

Record BucketRange := mkBucketRange { minBucket : Z; maxBucket : Z }.

(** [getBucketRange], lines 40-53. It only reads the store. *)
Definition getBucketRange (h : heap) (buckets : list loc) : option BucketRange :=
  let nonEmptyBuckets :=
    filter (λ index, index ≠ -1)
           (imap (λ index set, if 0 <? Set_size h set then Z.of_nat index else -1)
                 buckets) in
  match nonEmptyBuckets with
  | [] => None
  | x :: xs =>
      Some {| minBucket := Math_min x xs; maxBucket := Math_max x xs |}
  end.

(** [practice], lines 64-79. JavaScript's [%] is the truncating remainder. *)
Definition practice (buckets : list loc) (day : Z) : M loc :=
  if day <? 0 then throw (mkError "Day number must be non-negative")
  else
    selectedCards ← Set_new;
    _ ← forM_ (seq 0 (length buckets)) (λ i,
          if Z.rem day (Z.of_nat i + 1) =? 0
          then opt_call (buckets !! i)
                 (λ s, Set_forEach s (λ card, Set_add selectedCards card))
          else mret ());
    mret selectedCards.

(** [update], lines 90-117. *)
Definition update (buckets : BucketMap) (card : FlashcardRef)
    (difficulty : AnswerDifficulty) : M BucketMap :=
  h ← get_heap;
  match fst <$> Array_find (λ e, Set_has h e.2 card) buckets with
  | None => throw (mkError "Card not found")
  | Some currentBucket =>
      let bucketAdjustment :=
        match difficulty with
        | Easy => 1
        | Hard => -1
        | Wrong => 0
        end in
      let newBucket :=
        Z.max 0 (Z.min (currentBucket + bucketAdjustment) (Map_size buckets - 1)) in
      let newBuckets := Map_new buckets in
      _ ← opt_call (Map_get newBuckets currentBucket) (λ s, Set_delete s card);
      newBuckets ←
        (if negb (Map_has newBuckets newBucket)
         then s ← Set_new; mret (Map_set newBuckets newBucket s)
         else mret newBuckets);
      _ ← opt_call (Map_get newBuckets newBucket) (λ s, Set_add s card);
      mret newBuckets
  end.

(** [getHint], lines 132-134. *)
Definition getHint (card : Flashcard) : JsString.t :=
  JsString.or_else (JsString.trim (hint card))
    (JsString.lit "Think about the key concepts related to " ++ front card).

(** The earlier copy of [algorithm.ts] kept in the repository: it differs in
    [practice], which reviews bucket [i] every [2 ** i] days. *)
Module Earlier.

Definition practice (buckets : list loc) (day : Z) : M loc :=
  if day <? 0 then throw (mkError "Day number must be non-negative")
  else
    h ← get_heap;
    let cards :=
      mjoin (imap (λ bucketIndex set,
                     if Z.rem day (2 ^ Z.of_nat bucketIndex) =? 0
                     then elements (Set_at h set) else [])
                  buckets) in
    s ← Set_new;
    _ ← forM_ cards (λ card, Set_add s card);
    mret s.

End Earlier.

(** ** Specification-side definitions *)

(** Every reference of an array, or of a Map, denotes an allocated Set: what
    JavaScript guarantees of any value a program holds. *)
Definition Array_live (h : heap) (buckets : list loc) : Prop :=
  Forall (λ s, (s < length h)%nat) buckets.

Definition Map_live (h : heap) (buckets : BucketMap) : Prop :=
  Forall (λ e, (e.2 < length h)%nat) buckets.

(** The cards bucket [i] contributes on day [day]. *)
Definition scheduled (h : heap) (buckets : list loc) (day : Z) (i : nat) : cardset :=
  if Z.rem day (Z.of_nat i + 1) =? 0
  then from_option (Set_at h) ∅ (buckets !! i)
  else ∅.

(** Bucket [k] of the Map holds the card. *)
Definition holds (h : heap) (buckets : BucketMap) (card : FlashcardRef) (k : Z) : Prop :=
  ∃ l, (k, l) ∈ buckets ∧ card ∈ Set_at h l.

(** Each Flashcard appears in at most one bucket. *)
Definition one_bucket_each (h : heap) (buckets : BucketMap) : Prop :=
  ∀ card k1 k2, holds h buckets card k1 → holds h buckets card k2 → k1 = k2.

(** The step a difficulty asks for. *)
Definition adjustment (difficulty : AnswerDifficulty) : Z :=
  match difficulty with
  | Easy => 1
  | Hard => -1
  | Wrong => 0
  end.

(** The test suite's three cards, each alone in its bucket. *)
Definition card1 : FlashcardRef := 1%positive.
Definition card2 : FlashcardRef := 2%positive.
Definition card3 : FlashcardRef := 3%positive.
Definition three_buckets : heap := [{[card1]}; {[card2]}; {[card3]}].

(** The cards of the Set a computation returns. *)
Definition returned_cards (r : result loc) : option cardset :=
  match r with
  | Ok s h => Some (Set_at h s)
  | Throw _ => None
  end.

(** The array of the test "finds the correct range when buckets have gaps". *)
Definition range_test_heap : heap := [∅; {[card1]}; ∅; {[card2]}].

(** The Map of the test "moves card down when answered Hard": [card1] in
    bucket 1, entered first, and an empty bucket 0. *)
Definition hard_test_map : BucketMap := [(1, 0%nat); (0, 1%nat)].
Definition hard_test_heap : heap := [{[card1]}; ∅].

(** The Map of the test "moves card up when answered Easy": [card1] in
    bucket 0 and an empty bucket 1, each with a Set of its own. *)
Definition easy_test_map : BucketMap := [(0, 0%nat); (1, 1%nat)].
Definition easy_test_heap : heap := [{[card1]}; ∅].

(** Three buckets 0, 1 and 2, each with a Set of its own, and the three
    cards one to a bucket. *)
Definition three_bucket_map : BucketMap := [(0, 0%nat); (1, 1%nat); (2, 2%nat)].

(** A card whose hint has nothing to trim. *)
Definition annihilation_card : Flashcard :=
  {| front := JsString.lit "What is annihilation?";
     back := JsString.lit "the conversion of matter into energy.";
     hint := JsString.lit "It's the complete opposite of creation";
     tags := [] |}.


(** The Map of the test "handles buckets that aren't numbered
    sequentially": [card1] in bucket 2, the one key. *)
Definition gap_map : BucketMap := [(2, 0%nat)].
Definition gap_heap : heap := [{[card1]}].

(** A Map with the two keys 5 and 7, [card1] in bucket 5. *)
Definition sparse_map : BucketMap := [(5, 0%nat); (7, 1%nat)].
Definition sparse_heap : heap := [{[card1]}; ∅].

(** ** Tactics *)

(** Evaluating the hypotheses of the statements on a concrete Map and store. *)
Ltac solve_NoDup :=
  unfold Map_keys; simpl;
  repeat (apply NoDup_cons_2; [set_solver|]); apply NoDup_nil_2.
Ltac solve_live := unfold Map_live, Array_live; repeat constructor.
Ltac split_holds H :=
  let l := fresh "l" in let Hin := fresh "Hin" in let Hc := fresh "Hc" in
  destruct H as (l & Hin & Hc);
  repeat (apply elem_of_cons in Hin as [Hin|Hin]);
  try (by apply elem_of_nil in Hin);
  simplify_eq; unfold Set_at in Hc; simpl in Hc; try set_solver.

(** ** Facts about the store *)

Section store.
Implicit Types (h k : heap) (l : loc) (s : cardset) (c : FlashcardRef).

Lemma Set_at_app_l h k l : (l < length h)%nat → Set_at (h ++ k) l = Set_at h l.
Proof. intros Hl. unfold Set_at. by rewrite lookup_app_l. Qed.

Lemma Set_at_fresh h s : Set_at (h ++ [s]) (length h) = s.
Proof. unfold Set_at. by rewrite list_lookup_middle. Qed.

Lemma Set_at_dangling h l : (length h ≤ l)%nat → Set_at h l = ∅.
Proof. intros Hl. unfold Set_at. by rewrite lookup_ge_None_2. Qed.

Lemma Set_at_alter_eq (f : cardset → cardset) h l :
  (l < length h)%nat → Set_at (alter f l h) l = f (Set_at h l).
Proof.
  intros [s Hs]%lookup_lt_is_Some. unfold Set_at.
  by rewrite list_lookup_alter_eq, Hs.
Qed.

Lemma Set_at_alter_ne (f : cardset → cardset) h l l' :
  l ≠ l' → Set_at (alter f l h) l' = Set_at h l'.
Proof. intros Hne. unfold Set_at. by rewrite list_lookup_alter_ne. Qed.

Lemma Set_has_true h l c : Set_has h l c = true ↔ c ∈ Set_at h l.
Proof. unfold Set_has. by rewrite bool_decide_eq_true. Qed.

Lemma Set_has_false h l c : Set_has h l c = false ↔ c ∉ Set_at h l.
Proof. unfold Set_has. by rewrite bool_decide_eq_false. Qed.
End store.

(** ** Facts about the monad and its loops *)

Lemma bind_Ok {A B} (c : M A) (f : A → M B) h a h' :
  c h = Ok a h' → (c ≫= f) h = f a h'.
Proof. intros Hc. unfold mbind, M_bind. by rewrite Hc. Qed.

(** A loop whose body never throws never throws. *)
Lemma forM__never_throws {A} (body : A → M unit) :
  (∀ x h, ∃ h', body x h = Ok () h') →
  ∀ xs h, ∃ h', forM_ xs body h = Ok () h'.
Proof.
  intros Hbody xs. induction xs as [|x xs IH]; intros h; simpl.
  - by exists h.
  - destruct (Hbody x h) as [h1 H1]. rewrite (bind_Ok _ _ _ _ _ H1). apply IH.
Qed.

Lemma alter_fresh (f : cardset → cardset) (h : heap) (s : cardset) :
  alter f (length h) (h ++ [s]) = h ++ [f s].
Proof. by rewrite <-(Nat.add_0_r (length h)), alter_app_r. Qed.

(** Adding the cards of a list to the Set allocated last. *)
Lemma forM__add_fresh (h : heap) (cs : list positive) (S0 : cardset) :
  forM_ cs (Set_add (length h)) (h ++ [S0]) = Ok () (h ++ [list_to_set cs ∪ S0]).
Proof.
  revert S0. induction cs as [|c cs IH]; intros S0; simpl.
  - unfold mret, M_ret. do 3 f_equal. set_solver.
  - erewrite bind_Ok; last by unfold Set_add; rewrite alter_fresh.
    rewrite IH. do 3 f_equal. set_solver.
Qed.

Lemma Set_forEach_add_fresh (h : heap) (s : loc) (S0 : cardset) :
  (s < length h)%nat →
  Set_forEach s (Set_add (length h)) (h ++ [S0]) = Ok () (h ++ [Set_at h s ∪ S0]).
Proof.
  intros Hs. unfold Set_forEach.
  erewrite bind_Ok; last done.
  rewrite forM__add_fresh, Set_at_app_l by done.
  by rewrite list_to_set_elements_L.
Qed.

Lemma Set_forEach_never_throws (s : loc) (f : positive → M unit) :
  (∀ c h, ∃ h', f c h = Ok () h') → ∀ h, ∃ h', Set_forEach s f h = Ok () h'.
Proof.
  intros Hf h. unfold Set_forEach. erewrite bind_Ok; last done.
  by apply forM__never_throws.
Qed.

(** ** [practice] *)

Lemma practice_loop (h : heap) (buckets : list loc) (day : Z) (ixs : list nat) (S0 : cardset) :
  Array_live h buckets →
  forM_ ixs (λ i,
      if Z.rem day (Z.of_nat i + 1) =? 0
      then opt_call (buckets !! i)
             (λ s, Set_forEach s (λ card, Set_add (length h) card))
      else mret ()) (h ++ [S0])
  = Ok () (h ++ [⋃ (scheduled h buckets day <$> ixs) ∪ S0]).
Proof.
  intros Hclosed. revert S0. induction ixs as [|i ixs IH]; intros S0; simpl.
  - unfold mret, M_ret. do 3 f_equal. set_solver.
  - rewrite (bind_Ok _ _ _ () (h ++ [scheduled h buckets day i ∪ S0])).
    + rewrite IH. do 3 f_equal. set_solver.
    + unfold scheduled. destruct (Z.rem day (Z.of_nat i + 1) =? 0).
      * destruct (buckets !! i) as [s|] eqn:Hi; simpl.
        -- apply Set_forEach_add_fresh.
           by eapply Forall_lookup_1 in Hclosed.
        -- unfold mret, M_ret. do 3 f_equal. set_solver.
      * unfold mret, M_ret. do 3 f_equal. set_solver.
Qed.

Lemma practice_Ok (h : heap) (buckets : list loc) (day : Z) :
  Array_live h buckets → 0 ≤ day →
  practice buckets day h
  = Ok (length h) (h ++ [⋃ (scheduled h buckets day <$> seq 0 (length buckets))]).
Proof.
  intros Hclosed Hday. unfold practice.
  destruct (Z.ltb_spec day 0) as [?|_]; [lia|].
  erewrite bind_Ok; last by unfold Set_new.
  erewrite bind_Ok; last by apply practice_loop.
  unfold mret, M_ret. do 3 f_equal. set_solver.
Qed.

Lemma elem_of_scheduled (h : heap) (buckets : list loc) (day : Z) (c : positive) :
  0 ≤ day →
  c ∈ ⋃ (scheduled h buckets day <$> seq 0 (length buckets)) ↔
  ∃ i s, buckets !! i = Some s ∧ day `mod` (Z.of_nat i + 1) = 0 ∧ c ∈ Set_at h s.
Proof.
  intros Hday. rewrite elem_of_union_list. split.
  - intros (X & [i [-> Hi]]%list_elem_of_fmap & Hc).
    unfold scheduled in Hc.
    destruct (Z.eqb_spec (Z.rem day (Z.of_nat i + 1)) 0) as [Hrem|_]; [|set_solver].
    destruct (buckets !! i) as [s|] eqn:Hs; [|set_solver].
    exists i, s. rewrite Z.rem_mod_nonneg in Hrem by lia. done.
  - intros (i & s & Hs & Hmod & Hc). exists (scheduled h buckets day i). split.
    + apply list_elem_of_fmap. exists i. split; [done|].
      apply elem_of_seq. apply lookup_lt_Some in Hs. lia.
    + unfold scheduled. rewrite Z.rem_mod_nonneg, Hmod, Hs by lia. done.
Qed.

Lemma practice_never_throws (h : heap) (buckets : list loc) (day : Z) :
  0 ≤ day → ∃ sel h', practice buckets day h = Ok sel h'.
Proof.
  intros Hday. unfold practice.
  destruct (Z.ltb_spec day 0) as [?|_]; [lia|].
  erewrite bind_Ok; last by unfold Set_new.
  edestruct (forM__never_throws (A := nat)) as [h' Hloop]; last first.
  { erewrite bind_Ok; last exact Hloop. by eexists _, _. }
  intros i h0. simpl.
  destruct (Z.rem day (Z.of_nat i + 1) =? 0); [|by eexists].
  destruct (buckets !! i) as [s|]; simpl; [|by eexists].
  apply Set_forEach_never_throws. intros c h1. by eexists.
Qed.

Lemma Earlier_practice_never_throws (h : heap) (buckets : list loc) (day : Z) :
  0 ≤ day → ∃ sel h', Earlier.practice buckets day h = Ok sel h'.
Proof.
  intros Hday. unfold Earlier.practice.
  destruct (Z.ltb_spec day 0) as [?|_]; [lia|].
  erewrite bind_Ok; last done. simpl.
  erewrite bind_Ok; last by unfold Set_new.
  edestruct (forM__never_throws (A := positive)) as [h' Hloop]; last first.
  { erewrite bind_Ok; last exact Hloop. by eexists _, _. }
  intros c h1. by eexists.
Qed.

(** C1: on a non-negative day [practice] returns a Set that holds exactly the
    cards of the buckets at the indices [i] with [day mod (i + 1) = 0]; the
    bucket at index 0 is always among them, and the Sets of the array are
    left as they were. *)
Theorem practice_scheduled_union (h : heap) (buckets : list loc) (day : Z) :
  Array_live h buckets → 0 ≤ day →
  ∃ sel h', practice buckets day h = Ok sel h' ∧
    (∀ c, c ∈ Set_at h' sel ↔
          ∃ i s, buckets !! i = Some s ∧ day `mod` (Z.of_nat i + 1) = 0
                 ∧ c ∈ Set_at h s) ∧
    (∀ s, buckets !! 0%nat = Some s → Set_at h s ⊆ Set_at h' sel) ∧
    (∀ l, (l < length h)%nat → h' !! l = h !! l).
Proof.
  intros Hlive Hday. eexists _, _. split; [by apply practice_Ok|].
  rewrite Set_at_fresh.
  assert (Hiff := λ c, elem_of_scheduled h buckets day c Hday).
  split; [done|]. split.
  - intros s Hs c Hc. apply Hiff. exists 0%nat, s.
    by rewrite Z.mod_1_r.
  - intros l Hl. by rewrite lookup_app_l.
Qed.

Lemma practice_scheduled_union_witness :
  ∃ sel h', practice [0; 1; 2]%nat 2 three_buckets = Ok sel h' ∧
    (∀ c, c ∈ Set_at h' sel ↔
          ∃ i s, [0; 1; 2]%nat !! i = Some s ∧ 2 `mod` (Z.of_nat i + 1) = 0
                 ∧ c ∈ Set_at three_buckets s) ∧
    (∀ s, [0; 1; 2]%nat !! 0%nat = Some s →
          Set_at three_buckets s ⊆ Set_at h' sel) ∧
    (∀ l, (l < length three_buckets)%nat → h' !! l = three_buckets !! l).
Proof.
  apply (practice_scheduled_union three_buckets [0; 1; 2]%nat 2).
  - unfold Array_live. repeat constructor.
  - lia.
Defined.

(** C8: [practice] throws exactly when [day] is negative, before anything is
    allocated or returned; on every other day it returns a Set. Both copies of
    [practice] in the repository behave so. *)
Theorem practice_throws_iff_negative (h : heap) (buckets : list loc) (day : Z) :
  (practice buckets day h = Throw (mkError "Day number must be non-negative")
     ↔ day < 0) ∧
  ((∃ sel h', practice buckets day h = Ok sel h') ↔ 0 ≤ day) ∧
  (Earlier.practice buckets day h = Throw (mkError "Day number must be non-negative")
     ↔ day < 0) ∧
  ((∃ sel h', Earlier.practice buckets day h = Ok sel h') ↔ 0 ≤ day).
Proof.
  destruct (Z.lt_ge_cases day 0) as [Hneg|Hpos].
  - assert (practice buckets day h
            = Throw (mkError "Day number must be non-negative")) as Hp.
    { unfold practice. by destruct (Z.ltb_spec day 0); [|lia]. }
    assert (Earlier.practice buckets day h
            = Throw (mkError "Day number must be non-negative")) as He.
    { unfold Earlier.practice. by destruct (Z.ltb_spec day 0); [|lia]. }
    rewrite Hp, He. repeat split; try done; try lia.
    all: intros (? & ? & ?); discriminate.
  - destruct (practice_never_throws h buckets day Hpos) as (s1 & h1 & Hp).
    destruct (Earlier_practice_never_throws h buckets day Hpos) as (s2 & h2 & He).
    rewrite Hp, He. repeat split; try done; try lia; eauto.
Qed.

(** ** Facts about Maps *)

Lemma Map_get_Some_elem (m : BucketMap) k v : Map_get m k = Some v → (k, v) ∈ m.
Proof.
  induction m as [|[k' v'] m IH]; simpl; [done|].
  case_decide as Hk.
  - intros [= ->]. subst. left.
  - intros ?. right. auto.
Qed.

Lemma Map_get_None (m : BucketMap) k : Map_get m k = None ↔ k ∉ Map_keys m.
Proof.
  unfold Map_keys. induction m as [|[k' v'] m IH]; simpl.
  - split; [set_solver|done].
  - case_decide as Hk; [subst; split; [done|set_solver]|].
    rewrite IH. set_solver.
Qed.

Lemma Map_get_elem (m : BucketMap) k v :
  NoDup (Map_keys m) → (k, v) ∈ m → Map_get m k = Some v.
Proof.
  unfold Map_keys. induction m as [|[k' v'] m IH]; simpl; [by intros _ ?%elem_of_nil|].
  intros [Hk' Hnd]%NoDup_cons [[= -> ->]|Hin]%elem_of_cons.
  - by rewrite decide_True.
  - rewrite decide_False; [by apply IH|].
    intros ->. apply Hk'. apply list_elem_of_fmap. by exists (k, v).
Qed.

Lemma Map_get_app_fresh (m : BucketMap) k v :
  Map_get m k = None → Map_get (m ++ [(k, v)]) k = Some v.
Proof.
  induction m as [|[k' v'] m IH]; simpl.
  - by rewrite decide_True.
  - case_decide; [done|]. apply IH.
Qed.

Lemma Map_set_fresh (m : BucketMap) k v :
  Map_get m k = None → Map_set m k v = m ++ [(k, v)].
Proof.
  induction m as [|[k' v'] m IH]; simpl; [done|].
  case_decide; [done|]. intros ?. by rewrite IH.
Qed.

(** Copying a Map gives its entries again, in the same order. *)
Lemma Map_new_entries (m : BucketMap) : NoDup (Map_keys m) → Map_new m = m.
Proof.
  unfold Map_new.
  enough (∀ acc, NoDup (Map_keys (acc ++ m)) →
            foldl (λ m0 e, Map_set m0 e.1 e.2) acc m = acc ++ m) as H
    by exact (H []).
  induction m as [|[k v] m IH]; intros acc Hnd; simpl.
  - by rewrite app_nil_r.
  - rewrite Map_set_fresh.
    + rewrite IH; rewrite <-app_assoc; done.
    + apply Map_get_None. unfold Map_keys in *. rewrite fmap_app in Hnd.
      apply NoDup_app in Hnd as (_ & Hdis & _). intros Hk.
      apply (Hdis _ Hk). simpl. left.
Qed.

Lemma Array_find_Some {A} (p : A → bool) (xs : list A) (x : A) :
  Array_find p xs = Some x → x ∈ xs ∧ p x = true.
Proof.
  induction xs as [|y xs IH]; simpl; [done|].
  destruct (p y) eqn:Hy.
  - intros [= ->]. split; [left|done].
  - intros [? ?]%IH. split; [by right|done].
Qed.

Lemma Array_find_None {A} (p : A → bool) (xs : list A) :
  Array_find p xs = None ↔ ∀ x, x ∈ xs → p x = false.
Proof.
  induction xs as [|y xs IH]; simpl.
  - split; [by intros _ ? ?%elem_of_nil|done].
  - destruct (p y) eqn:Hy.
    + split; [done|]. intros H. specialize (H y). rewrite Hy in H.
      discriminate H. left.
    + rewrite IH. split.
      * intros H x [->|?]%elem_of_cons; auto.
      * intros H x ?. apply H. by right.
Qed.

(** The first entry whose Set has the card: some bucket holds it, or none does. *)
Lemma find_bucket_Some (h : heap) (m : BucketMap) card e :
  Array_find (λ e, Set_has h e.2 card) m = Some e → holds h m card e.1.
Proof.
  intros [Hin Hhas%Set_has_true]%Array_find_Some. exists e.2. by destruct e.
Qed.

Lemma find_bucket_None (h : heap) (m : BucketMap) card :
  Array_find (λ e, Set_has h e.2 card) m = None ↔ ∀ k, ¬ holds h m card k.
Proof.
  rewrite Array_find_None. split.
  - intros H k (l & Hin & Hc). specialize (H _ Hin). simpl in H.
    by apply Set_has_false in H.
  - intros H [k l] Hin. simpl. apply Set_has_false. intros Hc.
    apply (H k). by exists l.
Qed.

(** ** [update] *)

(** What [update] returns once the card has been found in bucket [b], whose
    Set is at [lb], when the new bucket is a key of the Map: the Map given,
    whose Sets at [lb] and [ln] have been written to. *)
Lemma update_existing_bucket (h : heap) (m : BucketMap) card difficulty b lb ln :
  NoDup (Map_keys m) →
  Array_find (λ e, Set_has h e.2 card) m = Some (b, lb) →
  Map_get m (Z.max 0 (Z.min (b + adjustment difficulty) (Map_size m - 1))) = Some ln →
  update m card difficulty h
  = Ok m (alter (λ s, {[card]} ∪ s) ln (alter (λ s, s ∖ {[card]}) lb h)).
Proof.
  intros Hnd Hfind Hnew.
  destruct (Array_find_Some _ _ _ Hfind) as [Hin _].
  unfold update. erewrite bind_Ok; last done. rewrite Hfind. simpl.
  rewrite Map_new_entries by done.
  rewrite (Map_get_elem m b lb) by done. simpl.
  erewrite bind_Ok; last done.
  replace (match difficulty with Wrong => 0 | Hard => -1 | Easy => 1 end)
    with (adjustment difficulty) by by destruct difficulty.
  unfold Map_has. rewrite Hnew, bool_decide_eq_true_2 by eauto. simpl.
  erewrite bind_Ok; last done. rewrite Hnew. simpl.
  by erewrite bind_Ok.
Qed.

(** The same when the new bucket is not a key of the Map: the Map given with
    the new bucket added last, holding a new Set with the card alone. *)
Lemma update_created_bucket (h : heap) (m : BucketMap) card difficulty b lb :
  NoDup (Map_keys m) →
  Array_find (λ e, Set_has h e.2 card) m = Some (b, lb) →
  Map_get m (Z.max 0 (Z.min (b + adjustment difficulty) (Map_size m - 1))) = None →
  update m card difficulty h
  = Ok (m ++ [(Z.max 0 (Z.min (b + adjustment difficulty) (Map_size m - 1)),
               length h)])
       (alter (λ s, s ∖ {[card]}) lb h ++ [{[card]}]).
Proof.
  intros Hnd Hfind Hnew.
  destruct (Array_find_Some _ _ _ Hfind) as [Hin _].
  unfold update. erewrite bind_Ok; last done. rewrite Hfind. simpl.
  rewrite Map_new_entries by done.
  rewrite (Map_get_elem m b lb) by done. simpl.
  erewrite bind_Ok; last done.
  replace (match difficulty with Wrong => 0 | Hard => -1 | Easy => 1 end)
    with (adjustment difficulty) by by destruct difficulty.
  unfold Map_has. rewrite Hnew, bool_decide_eq_false_2 by (intros [? ?]; done).
  simpl.
  erewrite bind_Ok; last by erewrite bind_Ok; last by unfold Set_new.
  rewrite Map_set_fresh by done.
  rewrite Map_get_app_fresh by done. simpl.
  erewrite bind_Ok; last done.
  unfold mret, M_ret. rewrite length_alter. f_equal.
  rewrite <-(length_alter (λ s, s ∖ {[card]}) h lb), alter_fresh.
  do 2 f_equal. set_solver.
Qed.

(** Both cases together: the Map returned has a Set [ln] at the new bucket;
    the card has left [lb] and entered [ln], and the other cards are where
    they were. *)
Lemma update_found (h : heap) (m : BucketMap) card difficulty b lb :
  NoDup (Map_keys m) → Map_live h m →
  Array_find (λ e, Set_has h e.2 card) m = Some (b, lb) →
  let newBucket := Z.max 0 (Z.min (b + adjustment difficulty) (Map_size m - 1)) in
  ∃ m' h' ln,
    update m card difficulty h = Ok m' h' ∧
    Map_get m' newBucket = Some ln ∧
    (m' = m ∨ Map_get m newBucket = None ∧ m' = m ++ [(newBucket, ln)]
              ∧ ln = length h) ∧
    (∀ x l, x ∈ Set_at h' l ↔
            (x = card ∧ l = ln) ∨ (x ∈ Set_at h l ∧ ¬ (x = card ∧ l = lb))).
Proof.
  intros Hnd Hlive Hfind newBucket.
  destruct (Array_find_Some _ _ _ Hfind) as [Hin _].
  unfold Map_live in Hlive. rewrite Forall_forall in Hlive.
  assert (lb < length h)%nat as Hlb by apply (Hlive _ Hin).
  set (h1 := alter (λ s, s ∖ {[card]}) lb h).
  assert (length h1 = length h) as Hlen by apply length_alter.
  assert (∀ x l, x ∈ Set_at h1 l ↔ x ∈ Set_at h l ∧ ¬ (x = card ∧ l = lb)) as Hh1.
  { intros x l. subst h1. destruct (decide (lb = l)) as [<-|Hne].
    - rewrite Set_at_alter_eq by done. set_solver.
    - rewrite Set_at_alter_ne by done. naive_solver. }
  destruct (Map_get m newBucket) as [ln|] eqn:Hnew.
  - exists m, (alter (λ s, {[card]} ∪ s) ln h1), ln.
    split; [by apply (update_existing_bucket h m card difficulty b lb ln)|].
    split; [done|]. split; [by left|].
    assert (ln < length h1)%nat as Hln.
    { rewrite Hlen. apply Map_get_Some_elem in Hnew. apply (Hlive _ Hnew). }
    intros x l. destruct (decide (ln = l)) as [<-|Hne].
    + rewrite Set_at_alter_eq by done.
      rewrite elem_of_union, elem_of_singleton, Hh1. naive_solver.
    + rewrite Set_at_alter_ne by done. rewrite Hh1. naive_solver.
  - exists (m ++ [(newBucket, length h)]), (h1 ++ [{[card]}]), (length h).
    split; [by apply (update_created_bucket h m card difficulty b lb)|].
    split; [by apply Map_get_app_fresh|].
    split; [by right|].
    intros x l. rewrite <-Hlen.
    destruct (Nat.lt_trichotomy l (length h1)) as [Hl|[->|Hl]].
    + rewrite Set_at_app_l by done. rewrite Hh1.
      split; [naive_solver|]. intros [[_ ->]|?]; [lia|done].
    + rewrite Set_at_fresh. rewrite (Set_at_dangling h) by lia. set_solver.
    + rewrite (Set_at_dangling h), Set_at_dangling
        by (rewrite ?length_app; simpl; lia).
      split; [set_solver|]. intros [[_ ->]|[? _]]; [lia|set_solver].
Qed.

Lemma holds_nonempty (h : heap) (m : BucketMap) card k :
  holds h m card k → 1 ≤ Map_size m.
Proof.
  intros (l & Hin & _). unfold Map_size. destruct m; [by apply elem_of_nil in Hin|].
  simpl. lia.
Qed.

(** When one bucket holds the card, that bucket is the one [update] finds. *)
Lemma find_current_bucket (h : heap) (m : BucketMap) card b :
  holds h m card b → (∀ b', holds h m card b' → b' = b) →
  ∃ lb, Array_find (λ e, Set_has h e.2 card) m = Some (b, lb).
Proof.
  intros Hb Huniq.
  destruct (Array_find (λ e, Set_has h e.2 card) m) as [[b' lb]|] eqn:Hfind.
  - apply find_bucket_Some in Hfind as Hholds. simpl in Hholds.
    rewrite (Huniq _ Hholds). by exists lb.
  - rewrite find_bucket_None in Hfind. by destruct (Hfind b).
Qed.

Lemma NoDup_snd_key (m : BucketMap) k1 k2 l :
  NoDup m.*2 → (k1, l) ∈ m → (k2, l) ∈ m → k1 = k2.
Proof.
  induction m as [|[k v] m IH]; simpl; [by intros _ ?%elem_of_nil|].
  intros [Hv Hnd]%NoDup_cons H1 H2.
  assert (∀ k', (k', v) ∈ m → False) as Hfresh.
  { intros k' Hin. apply Hv. apply list_elem_of_fmap. by exists (k', v). }
  apply elem_of_cons in H1 as [[= -> ->]|H1], H2 as [[= ->]|H2];
    [done|by destruct (Hfresh k2)| |by apply IH].
  subst. by destruct (Hfresh k1).
Qed.

(** Where the card is after [update], when bucket [b] was the one bucket that
    held it: in the clamped target bucket; no longer in [b] unless that is
    the target; and, when each key has a Set object of its own, in the target
    bucket alone. *)
Lemma update_where_card_is (h : heap) (m : BucketMap) card difficulty b :
  NoDup (Map_keys m) → Map_live h m →
  holds h m card b → (∀ b', holds h m card b' → b' = b) →
  ∃ m' h',
    update m card difficulty h = Ok m' h' ∧
    holds h' m' card
      (Z.max 0 (Z.min (b + adjustment difficulty) (Map_size m - 1))) ∧
    (Z.max 0 (Z.min (b + adjustment difficulty) (Map_size m - 1)) ≠ b →
     ¬ holds h' m' card b) ∧
    (NoDup m.*2 →
     ∀ k, holds h' m' card k ↔
          k = Z.max 0 (Z.min (b + adjustment difficulty) (Map_size m - 1))).
Proof.
  intros Hnd Hlive Hb Huniq.
  destruct (find_current_bucket _ _ _ _ Hb Huniq) as [lb Hfind].
  destruct (Array_find_Some _ _ _ Hfind) as [Hin Hhas%Set_has_true].
  simpl in Hhas.
  destruct (update_found h m card difficulty b lb Hnd Hlive Hfind)
    as (m' & h' & ln & Hupd & Hget & Hshape & Hmem).
  set (newBucket := Z.max 0 (Z.min (b + adjustment difficulty) (Map_size m - 1))) in *.
  apply Map_get_Some_elem in Hget.
  pose proof Hlive as Hall. unfold Map_live in Hall. rewrite Forall_forall in Hall.
  assert (∀ k l, (k, l) ∈ m → card ∈ Set_at h l → l = lb) as Hcard.
  { intros k l Hkl Hc. assert (k = b) as -> by (apply Huniq; by exists l).
    apply (Map_get_elem m b l Hnd) in Hkl.
    apply (Map_get_elem m b lb Hnd) in Hin. congruence. }
  assert (∀ k l, (k, l) ∈ m' → card ∈ Set_at h l → (k, l) ∈ m) as Hold.
  { intros k l Hk Hx. destruct Hshape as [->|(_ & -> & ->)]; [done|].
    apply elem_of_app in Hk as [Hk|Hk%list_elem_of_singleton]; [done|].
    simplify_eq. rewrite Set_at_dangling in Hx by lia. set_solver. }
  assert (holds h' m' card newBucket) as Hthere.
  { exists ln. split; [done|]. apply Hmem. by left. }
  exists m', h'. split; [done|]. split; [done|]. split.
  - intros Hne (l & Hkl & Hl). apply Hmem in Hl as [[_ ->]|[Hl Hnot]].
    + destruct Hshape as [->|(_ & -> & ->)].
      * apply (Map_get_elem m b _ Hnd) in Hkl.
        apply (Map_get_elem m b lb Hnd) in Hin as Hgetb.
        assert (ln = lb) as -> by congruence.
        apply Hne, Huniq. by exists lb.
      * apply elem_of_app in Hkl as [Hkl|Hkl%list_elem_of_singleton].
        -- apply Hall in Hkl. simpl in Hkl. lia.
        -- congruence.
    + apply Hnot. split; [done|]. apply (Hcard b); [|done]. by apply Hold.
  - intros Hsets k. split; [|by intros ->].
    intros (l & Hkl & Hl). apply Hmem in Hl as [[_ ->]|[Hl Hnot]].
    + destruct Hshape as [->|(_ & -> & ->)].
      * by apply (NoDup_snd_key m k newBucket ln).
      * apply elem_of_app in Hkl as [Hkl|Hkl%list_elem_of_singleton]; [|congruence].
        apply Hall in Hkl. simpl in Hkl. lia.
    + destruct Hnot. split; [done|]. apply (Hcard k); [|done]. by apply Hold.
Qed.

(** C2: when the Map holds the card, in bucket [b], [update] puts it in bucket
    [max 0 (min (b + d) (size - 1))], [d] being 1 for Easy, -1 for Hard and 0
    for Wrong and [size] the number of keys of the Map given; that bucket is
    at least 0 and below [size]. The card is taken out of bucket [b] unless
    that is the target, and, when each key has a Set object of its own, the
    target is the one bucket the card is in. *)
Theorem update_places_card_clamped (h : heap) (m : BucketMap) card difficulty b :
  NoDup (Map_keys m) → Map_live h m →
  holds h m card b → (∀ b', holds h m card b' → b' = b) →
  ∃ m' h' newBucket,
    update m card difficulty h = Ok m' h' ∧
    newBucket = Z.max 0 (Z.min (b + adjustment difficulty) (Map_size m - 1)) ∧
    holds h' m' card newBucket ∧
    0 ≤ newBucket < Map_size m ∧
    (newBucket ≠ b → ¬ holds h' m' card b) ∧
    (NoDup m.*2 → ∀ k, holds h' m' card k ↔ k = newBucket).
Proof.
  intros Hnd Hlive Hb Huniq.
  destruct (update_where_card_is h m card difficulty b Hnd Hlive Hb Huniq)
    as (m' & h' & Hupd & Hthere & Hleft & Halone).
  exists m', h', (Z.max 0 (Z.min (b + adjustment difficulty) (Map_size m - 1))).
  split; [done|]. split; [done|]. split; [done|].
  split; [apply holds_nonempty in Hb; lia|]. by split.
Qed.

Lemma update_places_card_clamped_witness :
  ∃ m' h' newBucket,
    update easy_test_map card1 Easy easy_test_heap = Ok m' h' ∧
    newBucket = Z.max 0 (Z.min (0 + adjustment Easy) (Map_size easy_test_map - 1)) ∧
    holds h' m' card1 newBucket ∧
    0 ≤ newBucket < Map_size easy_test_map ∧
    (newBucket ≠ 0 → ¬ holds h' m' card1 0) ∧
    (NoDup easy_test_map.*2 → ∀ k, holds h' m' card1 k ↔ k = newBucket).
Proof.
  apply (update_places_card_clamped easy_test_heap easy_test_map card1 Easy 0).
  - solve_NoDup.
  - solve_live.
  - exists 0%nat. split; [left|]. unfold Set_at. simpl. set_solver.
  - intros b' Hb'. split_holds Hb'.
Defined.

(** C10: a card whose bucket number is at least the number of keys of the Map
    is moved down by Easy: it is put in bucket [size - 1] and taken out of
    the bucket it was in; so it is for a card in bucket 5 of a Map with the
    two keys 5 and 7, which ends in bucket 1 and in no other. *)
Theorem update_easy_demotes_above_key_count (h : heap) (m : BucketMap) card b :
  NoDup (Map_keys m) → Map_live h m →
  holds h m card b → (∀ b', holds h m card b' → b' = b) →
  Map_size m ≤ b →
  ∃ m' h' newBucket,
    update m card Easy h = Ok m' h' ∧
    holds h' m' card newBucket ∧
    newBucket = Map_size m - 1 ∧ newBucket < b ∧
    ¬ holds h' m' card b ∧
    (NoDup m.*2 → ∀ k, holds h' m' card k ↔ k = newBucket).
Proof.
  intros Hnd Hlive Hb Huniq Hsize.
  destruct (update_where_card_is h m card Easy b Hnd Hlive Hb Huniq)
    as (m' & h' & Hupd & Hthere & Hleft & Halone).
  apply holds_nonempty in Hb. simpl in Hthere, Hleft, Halone.
  replace (Z.max 0 (Z.min (b + 1) (Map_size m - 1))) with (Map_size m - 1)
    in Hthere, Hleft, Halone by lia.
  exists m', h', (Map_size m - 1). split; [done|]. split; [done|].
  split; [done|]. split; [lia|]. split; [apply Hleft; lia|done].
Qed.

Lemma update_easy_demotes_above_key_count_witness :
  ∃ m' h' newBucket,
    update sparse_map card1 Easy sparse_heap = Ok m' h' ∧
    holds h' m' card1 newBucket ∧
    newBucket = Map_size sparse_map - 1 ∧ newBucket < 5 ∧
    ¬ holds h' m' card1 5 ∧
    (NoDup sparse_map.*2 → ∀ k, holds h' m' card1 k ↔ k = newBucket).
Proof.
  apply (update_easy_demotes_above_key_count sparse_heap sparse_map card1 5).
  - solve_NoDup.
  - solve_live.
  - exists 0%nat. split; [left|]. unfold Set_at. simpl. set_solver.
  - intros b' Hb'. split_holds Hb'.
  - unfold Map_size, sparse_map. simpl. lia.
Defined.

(** Once the card is found nothing in [update] throws. *)
Lemma update_found_never_throws (h : heap) (m : BucketMap) card difficulty e :
  Array_find (λ e, Set_has h e.2 card) m = Some e →
  ∃ m' h', update m card difficulty h = Ok m' h'.
Proof.
  intros Hfind. unfold update. erewrite bind_Ok; last done. rewrite Hfind. simpl.
  unfold mbind, M_bind, opt_call, Set_delete, Set_add, Set_new, mret, M_ret.
  repeat case_match; simplify_eq; eauto.
Qed.

(** C4: [update] throws "Card not found" exactly when no bucket of the Map
    holds the card; when some bucket holds it, [update] returns a Map. *)
Theorem update_throws_iff_card_absent (h : heap) (m : BucketMap) card difficulty :
  (update m card difficulty h = Throw (mkError "Card not found")
     ↔ ∀ k, ¬ holds h m card k) ∧
  ((∃ m' h', update m card difficulty h = Ok m' h') ↔ ∃ k, holds h m card k).
Proof.
  destruct (Array_find (λ e, Set_has h e.2 card) m) as [e|] eqn:Hfind.
  - destruct (update_found_never_throws h m card difficulty e Hfind)
      as (m' & h' & Hupd).
    apply find_bucket_Some in Hfind. rewrite Hupd. split; split.
    + discriminate.
    + intros Hnone. by destruct (Hnone e.1).
    + eauto.
    + eauto.
  - assert (update m card difficulty h = Throw (mkError "Card not found")) as Hupd.
    { unfold update. erewrite bind_Ok; last done. by rewrite Hfind. }
    rewrite find_bucket_None in Hfind. rewrite Hupd. split; split.
    + done.
    + done.
    + intros (? & ? & ?). discriminate.
    + intros [k Hk]. by destruct (Hfind k).
Qed.

(** The Sets [update] writes to are those of the Map it was given: unless the
    new bucket has the very Set the card was found in, that Set of the input
    holds the card before the call and not after. *)
Lemma update_takes_card_from_input_set (h : heap) (m : BucketMap) card difficulty b lb :
  NoDup (Map_keys m) → Map_live h m →
  Array_find (λ e, Set_has h e.2 card) m = Some (b, lb) →
  Map_get m (Z.max 0 (Z.min (b + adjustment difficulty) (Map_size m - 1))) ≠ Some lb →
  ∃ m' h', update m card difficulty h = Ok m' h' ∧
           (b, lb) ∈ m ∧ card ∈ Set_at h lb ∧ card ∉ Set_at h' lb.
Proof.
  intros Hnd Hlive Hfind Hother.
  destruct (Array_find_Some _ _ _ Hfind) as [Hin Hhas%Set_has_true].
  destruct (update_found h m card difficulty b lb Hnd Hlive Hfind)
    as (m' & h' & ln & Hupd & Hget & Hshape & Hmem).
  exists m', h'. split; [done|]. split; [done|]. split; [done|].
  rewrite Hmem. intros [[_ ->]|[_ Hnot]]; [|by apply Hnot].
  destruct Hshape as [->|(_ & _ & ->)]; [done|].
  unfold Map_live in Hlive. rewrite Forall_forall in Hlive.
  apply Hlive in Hin. simpl in Hin. lia.
Qed.

(** C3: on the Map of the test "moves card up when answered Easy", [update]
    returns a Map that holds the very Sets of the Map it was given, and has
    taken the card out of, and put it into, those Sets: the Map given had
    the card in bucket 0 before the call and has it in bucket 1 after. *)
Theorem update_writes_to_the_sets_of_its_input :
  ∃ m' h',
    update easy_test_map card1 Easy easy_test_heap = Ok m' h' ∧
    m' = easy_test_map ∧
    holds easy_test_heap easy_test_map card1 0 ∧
    holds h' easy_test_map card1 1 ∧
    (∀ k, holds h' easy_test_map card1 k ↔ k = 1).
Proof.
  eexists _, _. split.
  { apply (update_existing_bucket _ _ _ _ 0 0%nat 1%nat);
      [solve_NoDup|by vm_compute|done]. }
  split; [done|]. simpl. split; [|split].
  - exists 0%nat. split; [left|]. unfold Set_at. simpl. set_solver.
  - exists 1%nat. split; [right; left|]. unfold Set_at. simpl. set_solver.
  - intros k. split.
    + intros Hk. split_holds Hk.
    + intros ->. exists 1%nat. split; [right; left|].
      unfold Set_at. simpl. set_solver.
Qed.




(** ** [toBucketSets] *)

Lemma Math_max_spec (x : Z) (xs : list Z) :
  Math_max x xs ∈ x :: xs ∧ ∀ y, y ∈ x :: xs → y ≤ Math_max x xs.
Proof.
  unfold Math_max. revert x. induction xs as [|z xs IH]; intros x; simpl.
  - split; [left|]. intros y ->%list_elem_of_singleton. lia.
  - destruct (IH (Z.max x z)) as [Hin Hle]. split.
    + apply elem_of_cons in Hin as [Heq|Hin]; [|by do 2 right].
      rewrite Heq. destruct (Z.max_spec x z) as [[_ ->]|[_ ->]]; [right|]; left.
    + intros y [->|[->|Hy]%elem_of_cons]%elem_of_cons.
      * specialize (Hle (Z.max x z)). pose proof (Hle ltac:(left)). lia.
      * specialize (Hle (Z.max x z)). pose proof (Hle ltac:(left)). lia.
      * apply Hle. by right.
Qed.

Lemma Math_min_spec (x : Z) (xs : list Z) :
  Math_min x xs ∈ x :: xs ∧ ∀ y, y ∈ x :: xs → Math_min x xs ≤ y.
Proof.
  unfold Math_min. revert x. induction xs as [|z xs IH]; intros x; simpl.
  - split; [left|]. intros y ->%list_elem_of_singleton. lia.
  - destruct (IH (Z.min x z)) as [Hin Hle]. split.
    + apply elem_of_cons in Hin as [Heq|Hin]; [|by do 2 right].
      rewrite Heq. destruct (Z.min_spec x z) as [[_ ->]|[_ ->]]; [|right]; left.
    + intros y [->|[->|Hy]%elem_of_cons]%elem_of_cons.
      * specialize (Hle (Z.min x z)). pose proof (Hle ltac:(left)). lia.
      * specialize (Hle (Z.min x z)). pose proof (Hle ltac:(left)). lia.
      * apply Hle. by right.
Qed.

(** The loop of [toBucketSets]: one reference pushed per index, the Map's own
    Set where the index is a key and a new Set where it is not; the store
    only grows, by empty Sets. *)
Lemma toBucketSets_loop (m : BucketMap) (zs : list Z) (acc : list loc) (h : heap) :
  ∃ rest h',
    foldM (λ bucketArray i,
             s ← match Map_get m i with
                 | Some s => mret s
                 | None => Set_new
                 end;
             mret (bucketArray ++ [s])) acc zs h = Ok (acc ++ rest) h' ∧
    length rest = length zs ∧
    (length h ≤ length h')%nat ∧
    (∀ l, Set_at h' l = Set_at h l) ∧
    (∀ j z, zs !! j = Some z →
       ∃ s, rest !! j = Some s ∧
            (Map_get m z = Some s ∨ Map_get m z = None ∧ (length h ≤ s)%nat)).
Proof.
  revert acc h. induction zs as [|z zs IH]; intros acc h.
  - exists [], h. simpl. rewrite app_nil_r. by repeat split.
  - simpl. destruct (Map_get m z) as [s|] eqn:Hz.
    + destruct (IH (acc ++ [s]) h) as (rest & h' & Hrun & Hlen & Hgrow & Hsame & Hrest).
      exists (s :: rest), h'. split.
      { erewrite bind_Ok; last by erewrite bind_Ok.
        by rewrite Hrun, <-app_assoc. }
      split; [simpl; by rewrite Hlen|]. split; [done|]. split; [done|].
      intros [|j] z' Hj; simpl in *; [simplify_eq; eauto|by apply Hrest].
    + destruct (IH (acc ++ [length h]) (h ++ [∅]))
        as (rest & h' & Hrun & Hlen & Hgrow & Hsame & Hrest).
      rewrite length_app in Hgrow. simpl in Hgrow.
      exists (length h :: rest), h'. split.
      { erewrite bind_Ok; last by erewrite bind_Ok; last by unfold Set_new.
        by rewrite Hrun, <-app_assoc. }
      split; [simpl; by rewrite Hlen|]. split; [lia|]. split.
      { intros l. rewrite Hsame. destruct (Nat.lt_trichotomy l (length h)) as [?|[->|?]].
        - by rewrite Set_at_app_l.
        - by rewrite Set_at_fresh, Set_at_dangling.
        - by rewrite !Set_at_dangling by (rewrite ?length_app; simpl; lia). }
      intros [|j] z' Hj; simpl in *.
      * simplify_eq. exists (length h). split; [done|]. right. by split.
      * destruct (Hrest j z' Hj) as (s & Hs & [?|[? Hfresh]]); exists s;
          (split; [done|]); [by left|right; split; [done|]].
        rewrite length_app in Hfresh. simpl in Hfresh. lia.
Qed.

(** The Sets the loop of [toBucketSets] allocates: the store grows by empty
    Sets only, and at an index that is no key of the Map the reference pushed
    is one of the Sets allocated. *)
Lemma toBucketSets_loop_alloc (m : BucketMap) (zs : list Z) (acc : list loc) (h : heap) :
  ∃ rest h' n,
    foldM (λ bucketArray i,
             s ← match Map_get m i with
                 | Some s => mret s
                 | None => Set_new
                 end;
             mret (bucketArray ++ [s])) acc zs h = Ok (acc ++ rest) h' ∧
    h' = h ++ replicate n ∅ ∧
    (∀ j z, zs !! j = Some z → Map_get m z = None →
       ∃ s, rest !! j = Some s ∧ (length h ≤ s < length h')%nat).
Proof.
  revert acc h. induction zs as [|z zs IH]; intros acc h.
  - exists [], h, 0%nat. simpl. rewrite !app_nil_r. by repeat split.
  - simpl. destruct (Map_get m z) as [s|] eqn:Hz.
    + destruct (IH (acc ++ [s]) h) as (rest & h' & n & Hrun & Hh' & Hrest).
      exists (s :: rest), h', n. split.
      { erewrite bind_Ok; last by erewrite bind_Ok.
        by rewrite Hrun, <-app_assoc. }
      split; [done|].
      intros [|j] z' Hj Hnone; simpl in *; [congruence|by apply (Hrest j z')].
    + destruct (IH (acc ++ [length h]) (h ++ [∅]))
        as (rest & h' & n & Hrun & Hh' & Hrest).
      assert (h' = h ++ replicate (S n) ∅) as Hgrown
        by (by rewrite Hh', <-app_assoc).
      exists (length h :: rest), h', (S n). split.
      { erewrite bind_Ok; last by erewrite bind_Ok; last by unfold Set_new.
        by rewrite Hrun, <-app_assoc. }
      split; [done|].
      intros [|j] z' Hj Hnone; simpl in *.
      * exists (length h). split; [done|].
        rewrite Hgrown, length_app. simpl. lia.
      * destruct (Hrest j z' Hj Hnone) as (s & Hs & Hlo & Hhi).
        exists s. split; [done|]. rewrite length_app in Hlo. simpl in Hlo. lia.
Qed.

(** C5: [toBucketSets] throws on no Map; the array it returns is empty when
    the Map is, and otherwise has one index for each number from 0 to the
    greatest key; at a key of the Map it has the Set the Map holds there, and
    at every other index a Set it has allocated, which is empty. The store
    is the one given followed by those empty Sets. *)
Theorem toBucketSets_dense (h : heap) (m : BucketMap) :
  NoDup (Map_keys m) → (∀ k, k ∈ Map_keys m → 0 ≤ k) →
  ∃ bucketArray h',
    toBucketSets m h = Ok bucketArray h' ∧
    (m = [] ↔ length bucketArray = 0%nat) ∧
    (∀ kmax, kmax ∈ Map_keys m → (∀ k, k ∈ Map_keys m → k ≤ kmax) →
       Z.of_nat (length bucketArray) = kmax + 1) ∧
    (∀ i s, (Z.of_nat i, s) ∈ m →
       bucketArray !! i = Some s ∧ Set_at h' s = Set_at h s) ∧
    (∀ i, (i < length bucketArray)%nat → Z.of_nat i ∉ Map_keys m →
       ∃ s, bucketArray !! i = Some s ∧ (length h ≤ s < length h')%nat ∧
            h' !! s = Some ∅ ∧ Set_at h' s = ∅) ∧
    (∃ n, h' = h ++ replicate n ∅).
Proof.
  intros Hnd Hkeys. unfold toBucketSets.
  set (top := match Map_keys m with [] => -1 | k :: ks => Math_max k ks end).
  destruct (toBucketSets_loop m (seqZ 0 (top + 1)) [] h)
    as (arr & h' & Hrun & Hlen & Hgrow & Hsame & Hrest).
  destruct (toBucketSets_loop_alloc m (seqZ 0 (top + 1)) [] h)
    as (arr2 & h2 & n & Hrun2 & Hh2 & Halloc).
  rewrite Hrun in Hrun2. injection Hrun2 as <- <-.
  simpl in Hrun. exists arr, h'. split; [done|].
  rewrite length_seqZ in Hlen.
  assert (m = [] ∧ top = -1 ∨
          m ≠ [] ∧ top ∈ Map_keys m ∧ ∀ k, k ∈ Map_keys m → k ≤ top) as Htop.
  { subst top. destruct m as [|[k v] m]; [by left|]. right.
    split; [done|]. simpl. apply Math_max_spec. }
  assert (∀ i, (i < length arr)%nat →
            ∃ s, arr !! i = Some s ∧
              (Map_get m (Z.of_nat i) = Some s
               ∨ Map_get m (Z.of_nat i) = None ∧ (length h ≤ s)%nat)) as Hidx.
  { intros i Hi. apply (Hrest i). apply lookup_seqZ. lia. }
  split; [|split; [|split; [|split]]].
  - destruct Htop as [[-> ->]|(Hne & Hin & _)].
    + simpl in Hlen. by split.
    + apply Hkeys in Hin. split; [done|]. lia.
  - intros kmax Hin Hmax. destruct Htop as [[-> _]|(_ & Htin & Htmax)].
    + by apply elem_of_nil in Hin.
    + assert (kmax = top) as -> by (apply Hmax in Htin; apply Htmax in Hin; lia).
      apply Hkeys in Hin. lia.
  - intros i s Hin. split; [|done].
    destruct Htop as [[-> _]|(_ & _ & Htmax)]; [by apply elem_of_nil in Hin|].
    assert (Z.of_nat i ≤ top) as Hle.
    { apply Htmax. apply list_elem_of_fmap. by exists (Z.of_nat i, s). }
    destruct (Hidx i) as (s' & Hs' & Hfrom); [lia|].
    rewrite (Map_get_elem m _ s Hnd Hin) in Hfrom.
    destruct Hfrom as [?|[? _]]; congruence.
  - intros i Hi Hnot.
    assert (Map_get m (Z.of_nat i) = None) as Hnone by by apply Map_get_None.
    destruct (Halloc i (Z.of_nat i)) as (s & Hs & Hlo & Hhi);
      [apply lookup_seqZ; lia|done|].
    exists s. split; [done|]. split; [done|].
    assert (h' !! s = Some ∅) as Hempty.
    { rewrite Hh2. rewrite lookup_app_r by done.
      apply lookup_replicate_2.
      rewrite Hh2, length_app, length_replicate in Hhi. lia. }
    split; [done|]. unfold Set_at. by rewrite Hempty.
  - by exists n.
Qed.

Lemma toBucketSets_dense_witness :
  ∃ bucketArray h',
    toBucketSets gap_map gap_heap = Ok bucketArray h' ∧
    (gap_map = [] ↔ length bucketArray = 0%nat) ∧
    (∀ kmax, kmax ∈ Map_keys gap_map → (∀ k, k ∈ Map_keys gap_map → k ≤ kmax) →
       Z.of_nat (length bucketArray) = kmax + 1) ∧
    (∀ i s, (Z.of_nat i, s) ∈ gap_map →
       bucketArray !! i = Some s ∧ Set_at h' s = Set_at gap_heap s) ∧
    (∀ i, (i < length bucketArray)%nat → Z.of_nat i ∉ Map_keys gap_map →
       ∃ s, bucketArray !! i = Some s ∧ (length gap_heap ≤ s < length h')%nat ∧
            h' !! s = Some ∅ ∧ Set_at h' s = ∅) ∧
    (∃ n, h' = gap_heap ++ replicate n ∅).
Proof.
  apply (toBucketSets_dense gap_heap gap_map).
  - solve_NoDup.
  - intros k Hk. unfold Map_keys, gap_map in Hk. simpl in Hk.
    apply list_elem_of_singleton in Hk. lia.
Defined.

(** ** [getBucketRange] *)

(** The indices kept by the [map] and [filter] of [getBucketRange] are those
    of the Sets that have a card. *)
Lemma elem_of_nonEmptyBuckets (h : heap) (buckets : list loc) (z : Z) :
  z ∈ filter (λ index, index ≠ -1)
        (imap (λ index set, if 0 <? Set_size h set then Z.of_nat index else -1)
              buckets)
  ↔ ∃ i s, z = Z.of_nat i ∧ buckets !! i = Some s ∧ Set_at h s ≠ ∅.
Proof.
  rewrite list_elem_of_filter, elem_of_lookup_imap. split.
  - intros (Hz & i & s & -> & Hs). exists i, s.
    destruct (Z.ltb_spec 0 (Set_size h s)) as [Hsize|_]; [|done].
    split; [done|]. split; [done|]. intros Hempty.
    unfold Set_size in Hsize. rewrite Hempty, size_empty in Hsize. lia.
  - intros (i & s & -> & Hs & Hne). split; [lia|]. exists i, s. split; [|done].
    destruct (Z.ltb_spec 0 (Set_size h s)) as [_|Hsize]; [done|].
    destruct Hne. apply leibniz_equiv, size_empty_iff. unfold Set_size in Hsize. lia.
Qed.

(** C6: [getBucketRange] returns undefined exactly when the array is empty or
    all its Sets are; otherwise [minBucket] is the lowest and [maxBucket] the
    highest index of a Set that has a card, and [minBucket ≤ maxBucket]. *)
Theorem getBucketRange_lowest_highest (h : heap) (buckets : list loc) :
  (getBucketRange h buckets = None
     ↔ buckets = [] ∨ ∀ s, s ∈ buckets → Set_at h s = ∅) ∧
  (∀ r, getBucketRange h buckets = Some r →
     minBucket r ≤ maxBucket r ∧
     (∃ i s, minBucket r = Z.of_nat i ∧ buckets !! i = Some s ∧ Set_at h s ≠ ∅) ∧
     (∃ i s, maxBucket r = Z.of_nat i ∧ buckets !! i = Some s ∧ Set_at h s ≠ ∅) ∧
     (∀ i s, buckets !! i = Some s → Set_at h s ≠ ∅ →
        minBucket r ≤ Z.of_nat i ≤ maxBucket r)).
Proof.
  unfold getBucketRange.
  pose proof (elem_of_nonEmptyBuckets h buckets) as Hchar.
  destruct (filter _ _) as [|x xs]; split.
  - split; [|done]. intros _. right. intros s [i Hi]%list_elem_of_lookup.
    destruct (decide (Set_at h s = ∅)) as [|Hne]; [done|].
    assert (Z.of_nat i ∈ @nil Z) as []%elem_of_nil.
    apply Hchar. by exists i, s.
  - done.
  - split; [done|]. intros [->|Hall].
    + assert (x ∈ x :: xs) as (i & s & _ & Hs & _)%Hchar by left. done.
    + assert (x ∈ x :: xs) as (i & s & _ & Hs & Hne)%Hchar by left.
      destruct Hne. apply Hall. by eapply list_elem_of_lookup_2.
  - intros r [= <-]. simpl.
    destruct (Math_min_spec x xs) as [Hmin_in Hmin_le].
    destruct (Math_max_spec x xs) as [Hmax_in Hmax_le].
    split; [|split; [|split]].
    + etrans; [apply Hmin_le|apply Hmax_le]; left.
    + by apply Hchar.
    + by apply Hchar.
    + intros i s Hs Hne.
      assert (Z.of_nat i ∈ x :: xs) by (apply Hchar; by exists i, s).
      split; [by apply Hmin_le|by apply Hmax_le].
Qed.

(** ** [getHint] *)

Lemma trimStart_spec (s : JsString.t) :
  ∃ pre, s = pre ++ JsString.trimStart s ∧
         Forall (λ u, JsString.is_white_space u = true) pre ∧
         ∀ u, head (JsString.trimStart s) = Some u →
              JsString.is_white_space u = false.
Proof.
  induction s as [|u s (pre & Heq & Hpre & Hhead)]; simpl.
  - by exists [].
  - destruct (JsString.is_white_space u) eqn:Hu.
    + exists (u :: pre). split; [simpl; by rewrite <-Heq|]. split; [by constructor|done].
    + exists []. split; [done|]. split; [done|]. by intros ? [= <-].
Qed.

Lemma trimEnd_spec (s : JsString.t) :
  ∃ post, s = JsString.trimEnd s ++ post ∧
          Forall (λ u, JsString.is_white_space u = true) post ∧
          (∀ u, last (JsString.trimEnd s) = Some u →
                JsString.is_white_space u = false) ∧
          (∀ u, head (JsString.trimEnd s) = Some u → head s = Some u).
Proof.
  induction s as [|u s (post & Heq & Hpost & Hlast & Hhead)]; simpl.
  - by exists [].
  - destruct (JsString.trimEnd s) as [|v r] eqn:Hr.
    + simpl in Heq. subst post. destruct (JsString.is_white_space u) eqn:Hu.
      * exists (u :: s). split; [done|]. split; [by constructor|done].
      * exists s. split; [done|]. split; [done|].
        split; [by intros ? [= <-]|done].
    + exists post. split; [simpl in *; congruence|]. split; [done|].
      split; [|done]. intros w Hw. apply Hlast.
      by rewrite last_cons_cons in Hw.
Qed.

(** C7: [getHint] returns the hint without its leading and trailing white
    space when that is not empty, and otherwise, when the hint is empty or
    all white space, the fixed sentence followed by the front as it is. *)
Theorem getHint_trimmed_or_generated (card : Flashcard) :
  ∃ pre trimmed post,
    hint card = pre ++ trimmed ++ post ∧
    Forall (λ u, JsString.is_white_space u = true) pre ∧
    Forall (λ u, JsString.is_white_space u = true) post ∧
    (∀ u, head trimmed = Some u → JsString.is_white_space u = false) ∧
    (∀ u, last trimmed = Some u → JsString.is_white_space u = false) ∧
    (trimmed = [] ↔ Forall (λ u, JsString.is_white_space u = true) (hint card)) ∧
    getHint card =
      if decide (trimmed = [])
      then JsString.lit "Think about the key concepts related to " ++ front card
      else trimmed.
Proof.
  destruct (trimStart_spec (hint card)) as (pre & Hpre_eq & Hpre & Hhead).
  destruct (trimEnd_spec (JsString.trimStart (hint card)))
    as (post & Hpost_eq & Hpost & Hlast & Hhead').
  exists pre, (JsString.trim (hint card)), post. unfold getHint, JsString.trim.
  set (t := JsString.trimEnd (JsString.trimStart (hint card))) in *.
  assert (∀ u, head t = Some u → JsString.is_white_space u = false) as Ht
    by (intros u Hu; by apply Hhead, Hhead').
  split; [by rewrite <-Hpost_eq|]. split; [done|]. split; [done|].
  split; [done|]. split; [done|]. split.
  - split.
    + intros Hnil. rewrite Hpre_eq, Hpost_eq, Hnil. simpl.
      by apply Forall_app.
    + intros Hall. destruct t as [|u t'] eqn:Heqt; [done|].
      rewrite Hpre_eq, Hpost_eq in Hall.
      apply Forall_app in Hall as [_ [Hu _]%Forall_app].
      apply Forall_cons in Hu as [Hu _]. rewrite (Ht u) in Hu; done.
  - unfold JsString.or_else. by destruct t.
Qed.

(** ** The inputs of the test suite

    On the three buckets of the test "picks the correct cards based on the
    day number" [practice] returns [card1] alone on day 1 and [card1] and
    [card2] on day 2; the test itself expects [card1], [card2] on day 1 and
    [card1], [card3] on day 2. *)

Example practice_day_0 :
  returned_cards (practice [0; 1; 2]%nat 0 three_buckets)
  = Some {[card1; card2; card3]}.
Proof. by vm_compute. Qed.

Example practice_day_1 :
  returned_cards (practice [0; 1; 2]%nat 1 three_buckets) = Some {[card1]}.
Proof. by vm_compute. Qed.

Example practice_day_2 :
  returned_cards (practice [0; 1; 2]%nat 2 three_buckets)
  = Some {[card1; card2]}.
Proof. by vm_compute. Qed.

(** The two copies of [practice] part on day 3: bucket 2 is due every third
    day in one and every fourth day in the other. *)
Example practice_day_3 :
  returned_cards (practice [0; 1; 2]%nat 3 three_buckets)
  = Some {[card1; card3]} ∧
  returned_cards (Earlier.practice [0; 1; 2]%nat 3 three_buckets)
  = Some {[card1]}.
Proof. by vm_compute. Qed.

Example getBucketRange_gaps :
  getBucketRange range_test_heap [0; 1; 2; 3]%nat
  = Some {| minBucket := 1; maxBucket := 3 |}.
Proof. by vm_compute. Qed.

Example getBucketRange_no_buckets : getBucketRange [] [] = None.
Proof. done. Qed.

Example update_hard_moves_down :
  ∃ m' h', update hard_test_map card1 Hard hard_test_heap = Ok m' h' ∧
           ¬ holds h' m' card1 1 ∧ holds h' m' card1 0.
Proof.
  eexists _, _. split.
  { apply (update_existing_bucket _ _ _ _ 1 0%nat 1%nat);
      [solve_NoDup|by vm_compute|done]. }
  simpl. split.
  - intros Hk. split_holds Hk.
  - exists 1%nat. split; [right; left|]. unfold Set_at. simpl. set_solver.
Qed.

Example getHint_custom :
  getHint {| front := JsString.lit "What is annihilation?";
             back := JsString.lit "the conversion of matter into energy.";
             hint := JsString.lit "It's the complete opposite of creation";
             tags := [] |}
  = JsString.lit "It's the complete opposite of creation".
Proof. reflexivity. Qed.

Example getHint_spaces :
  getHint {| front := JsString.lit "which animal is phascolarctos cinereus?";
             back := JsString.lit "Koala";
             hint := JsString.lit "    ";
             tags := [] |}
  = JsString.lit
      "Think about the key concepts related to which animal is phascolarctos cinereus?".
Proof. reflexivity. Qed.

(** A hint with white space around it comes back without it. *)
Example getHint_padded :
  getHint {| front := JsString.lit "X?"; back := [];
             hint := JsString.lit "  a b  "; tags := [] |}
  = JsString.lit "a b".
Proof. reflexivity. Qed.

(** ** More on [practice] *)

(** X1: the Set [practice] returns is a new object, none of the Sets of the
    array, and the store is otherwise as it was: writing to the result
    changes no bucket. *)
Theorem practice_returns_new_Set (h : heap) (buckets : list loc) (day : Z) :
  Array_live h buckets → 0 ≤ day →
  ∃ sel cards,
    practice buckets day h = Ok sel (h ++ [cards]) ∧
    sel = length h ∧ sel ∉ buckets.
Proof.
  intros Hlive Hday. eexists _, _. split; [by apply practice_Ok|].
  split; [done|]. intros Hin.
  unfold Array_live in Hlive. rewrite Forall_forall in Hlive.
  apply Hlive in Hin. lia.
Qed.

Lemma practice_returns_new_Set_witness :
  ∃ sel cards,
    practice [0; 1; 2]%nat 2 three_buckets = Ok sel (three_buckets ++ [cards]) ∧
    sel = length three_buckets ∧ sel ∉ [0; 1; 2]%nat.
Proof.
  apply (practice_returns_new_Set three_buckets [0; 1; 2]%nat 2).
  - solve_live.
  - lia.
Defined.

(** X2: on day 0 every bucket is due: [practice] returns all the cards of
    the array. *)
Theorem practice_day_0_all_cards (h : heap) (buckets : list loc) :
  Array_live h buckets →
  ∃ sel h',
    practice buckets 0 h = Ok sel h' ∧
    ∀ c, c ∈ Set_at h' sel ↔ ∃ s, s ∈ buckets ∧ c ∈ Set_at h s.
Proof.
  intros Hlive. eexists _, _. split; [by apply practice_Ok|].
  rewrite Set_at_fresh. intros c. rewrite elem_of_scheduled by done. split.
  - intros (i & s & Hs & _ & Hc). exists s. split; [|done].
    by eapply list_elem_of_lookup_2.
  - intros (s & [i Hi]%list_elem_of_lookup & Hc). exists i, s.
    split; [done|]. split; [|done]. apply Z.mod_0_l. lia.
Qed.

Lemma practice_day_0_all_cards_witness :
  ∃ sel h',
    practice [0; 1; 2]%nat 0 three_buckets = Ok sel h' ∧
    ∀ c, c ∈ Set_at h' sel ↔ ∃ s, s ∈ [0; 1; 2]%nat ∧ c ∈ Set_at three_buckets s.
Proof.
  apply (practice_day_0_all_cards three_buckets [0; 1; 2]%nat). solve_live.
Defined.

(** X3: no card waits longer than its bucket's interval: a card of the
    bucket at index [i] is returned on some day of every [i + 1] consecutive
    days. *)
Theorem practice_within_interval (h : heap) (buckets : list loc) (i : nat)
    (s : loc) (c : positive) (from : Z) :
  Array_live h buckets → buckets !! i = Some s → c ∈ Set_at h s → 0 ≤ from →
  ∃ day sel h',
    from ≤ day ≤ from + Z.of_nat i ∧
    practice buckets day h = Ok sel h' ∧ c ∈ Set_at h' sel.
Proof.
  intros Hlive Hs Hc Hfrom.
  set (n := Z.of_nat i + 1).
  set (day := (from + Z.of_nat i) `div` n * n).
  assert (0 < n) as Hn by lia.
  pose proof (Z.mul_div_le (from + Z.of_nat i) n Hn) as Hle.
  pose proof (Z.mul_succ_div_gt (from + Z.of_nat i) n Hn) as Hgt.
  assert (from ≤ day ≤ from + Z.of_nat i) as Hday by (subst day; lia).
  exists day. eexists _, _. split; [done|].
  split; [apply practice_Ok; [done|lia]|].
  rewrite Set_at_fresh. apply elem_of_scheduled; [lia|].
  exists i, s. split; [done|]. split; [|done].
  subst day. fold n. by apply Z.mod_mul, Z.neq_sym, Z.lt_neq.
Qed.

Lemma practice_within_interval_witness :
  ∃ day sel h',
    7 ≤ day ≤ 7 + Z.of_nat 2 ∧
    practice [0; 1; 2]%nat day three_buckets = Ok sel h' ∧
    card3 ∈ Set_at h' sel.
Proof.
  apply (practice_within_interval three_buckets [0; 1; 2]%nat 2 2%nat card3 7).
  - solve_live.
  - done.
  - unfold Set_at. simpl. set_solver.
  - lia.
Defined.

(** ** The earlier [practice] *)

Lemma Earlier_practice_Ok (h : heap) (buckets : list loc) (day : Z) :
  0 ≤ day →
  Earlier.practice buckets day h
  = Ok (length h)
       (h ++ [list_to_set
                (mjoin (imap (λ bucketIndex set,
                                if Z.rem day (2 ^ Z.of_nat bucketIndex) =? 0
                                then elements (Set_at h set) else [])
                             buckets)) ∪ ∅]).
Proof.
  intros Hday. unfold Earlier.practice.
  destruct (Z.ltb_spec day 0) as [?|_]; [lia|].
  erewrite bind_Ok; last done. simpl.
  erewrite bind_Ok; last by unfold Set_new.
  erewrite bind_Ok; last by apply forM__add_fresh.
  done.
Qed.

Lemma elem_of_Earlier_cards (h : heap) (buckets : list loc) (day : Z) (c : positive) :
  0 ≤ day →
  c ∈ mjoin (imap (λ bucketIndex set,
                     if Z.rem day (2 ^ Z.of_nat bucketIndex) =? 0
                     then elements (Set_at h set) else [])
                  buckets)
  ↔ ∃ i s, buckets !! i = Some s ∧ day `mod` 2 ^ Z.of_nat i = 0 ∧ c ∈ Set_at h s.
Proof.
  intros Hday. rewrite list_elem_of_join. split.
  - intros (cs & Hc & (i & s & -> & Hs)%elem_of_lookup_imap).
    exists i, s. split; [done|].
    destruct (Z.eqb_spec (Z.rem day (2 ^ Z.of_nat i)) 0) as [Hrem|_];
      [|by apply elem_of_nil in Hc].
    rewrite Z.rem_mod_nonneg in Hrem by lia. split; [done|].
    by apply elem_of_elements in Hc.
  - intros (i & s & Hs & Hmod & Hc). eexists. split.
    2: { apply elem_of_lookup_imap. by exists i, s. }
    simpl. rewrite Z.rem_mod_nonneg, Hmod by lia. simpl.
    by apply elem_of_elements.
Qed.



(** X5: the two copies of [practice] return the same cards on every array of
    at most two buckets, and on day 0 on every array. *)
Theorem practice_copies_agree (h : heap) (buckets : list loc) (day : Z) :
  Array_live h buckets → 0 ≤ day → (length buckets ≤ 2)%nat ∨ day = 0 →
  returned_cards (practice buckets day h)
  = returned_cards (Earlier.practice buckets day h).
Proof.
  intros Hlive Hday Hsmall.
  rewrite practice_Ok, Earlier_practice_Ok by done. simpl.
  rewrite !Set_at_fresh. f_equal. apply set_eq. intros c.
  rewrite elem_of_scheduled by done.
  rewrite elem_of_union, elem_of_list_to_set, elem_of_Earlier_cards by done.
  assert (∀ i s, buckets !! i = Some s →
            day `mod` (Z.of_nat i + 1) = 0 ↔ day `mod` 2 ^ Z.of_nat i = 0) as Hsame.
  { intros i s Hs. destruct Hsmall as [Hlen| ->].
    - apply lookup_lt_Some in Hs.
      destruct i as [|[|i]]; [done|done|lia].
    - rewrite !Z.mod_0_l; [done| |lia].
      apply Z.neq_sym, Z.lt_neq, Z.pow_pos_nonneg; lia. }
  split.
  - intros (i & s & Hs & Hmod & Hc). left. exists i, s.
    by rewrite <-(Hsame i s).
  - intros [(i & s & Hs & Hmod & Hc)|[]%not_elem_of_empty]. exists i, s.
    by rewrite (Hsame i s).
Qed.

Lemma practice_copies_agree_witness :
  returned_cards (practice [0; 1]%nat 6 three_buckets)
  = returned_cards (Earlier.practice [0; 1]%nat 6 three_buckets).
Proof.
  apply (practice_copies_agree three_buckets [0; 1]%nat 6).
  - solve_live.
  - lia.
  - left. simpl. lia.
Defined.

(** ** [toBucketSets] followed by the functions that read its array *)

Lemma Array_live_grow (h h' : heap) (buckets : list loc) :
  (length h ≤ length h')%nat → Array_live h buckets → Array_live h' buckets.
Proof.
  unfold Array_live. intros Hle Hlive. eapply Forall_impl; [done|].
  intros s Hs. simpl in Hs. lia.
Qed.

Lemma Map_live_grow (h h' : heap) (m : BucketMap) :
  (length h ≤ length h')%nat → Map_live h m → Map_live h' m.
Proof.
  unfold Map_live. intros Hle Hlive. eapply Forall_impl; [done|].
  intros e He. simpl in He. lia.
Qed.

(** The references the loop of [toBucketSets] pushes are allocated. *)
Lemma toBucketSets_loop_live (m : BucketMap) (zs : list Z) (acc : list loc)
    (h : heap) (arr : list loc) (h' : heap) :
  Map_live h m → Array_live h acc →
  foldM (λ bucketArray i,
           s ← match Map_get m i with
               | Some s => mret s
               | None => Set_new
               end;
           mret (bucketArray ++ [s])) acc zs h = Ok arr h' →
  Array_live h' arr.
Proof.
  revert acc h. induction zs as [|z zs IH]; intros acc h Hm Hacc; simpl.
  - by intros [= <- <-].
  - destruct (Map_get m z) as [s|] eqn:Hz.
    + erewrite bind_Ok; last by erewrite bind_Ok.
      apply IH; [done|]. apply Forall_app. split; [done|].
      apply Forall_singleton. apply Map_get_Some_elem in Hz.
      unfold Map_live in Hm. rewrite Forall_forall in Hm. apply (Hm _ Hz).
    + erewrite bind_Ok; last by erewrite bind_Ok; last by unfold Set_new.
      assert (length h ≤ length (h ++ [∅ : cardset]))%nat as Hle
        by (rewrite length_app; lia).
      apply IH; [by eapply Map_live_grow|].
      apply Forall_app. split; [by eapply Array_live_grow|].
      apply Forall_singleton. rewrite length_app. simpl. lia.
Qed.

Lemma holds_Map_get (h : heap) (m : BucketMap) (c : positive) (k : Z) :
  NoDup (Map_keys m) →
  holds h m c k ↔ ∃ s, Map_get m k = Some s ∧ c ∈ Set_at h s.
Proof.
  intros Hnd. split; intros (s & Hs & Hc); exists s; (split; [|done]).
  - by apply Map_get_elem.
  - by apply Map_get_Some_elem.
Qed.

(** The array of [toBucketSets] read as buckets: index [i] has a card exactly
    when bucket [i] of the Map holds it, and every bucket that holds a card
    has its index. *)
Lemma toBucketSets_contents (h : heap) (m : BucketMap) :
  NoDup (Map_keys m) → (∀ k, k ∈ Map_keys m → 0 ≤ k) → Map_live h m →
  ∃ arr h',
    toBucketSets m h = Ok arr h' ∧
    Array_live h' arr ∧
    (∀ i s c, arr !! i = Some s → c ∈ Set_at h' s ↔ holds h m c (Z.of_nat i)) ∧
    (∀ k c, holds h m c k → ∃ i s, k = Z.of_nat i ∧ arr !! i = Some s).
Proof.
  intros Hnd Hkeys Hlive. unfold toBucketSets.
  set (top := match Map_keys m with [] => -1 | k :: ks => Math_max k ks end).
  destruct (toBucketSets_loop m (seqZ 0 (top + 1)) [] h)
    as (arr & h' & Hrun & Hlen & Hgrow & Hsame & Hrest).
  simpl in Hrun. exists arr, h'. split; [done|].
  rewrite length_seqZ in Hlen.
  assert (∀ k, k ∈ Map_keys m → 0 ≤ k ≤ top) as Htop.
  { intros k Hk. split; [by apply Hkeys|]. subst top.
    destruct (Map_keys m) as [|k0 ks]; [by apply elem_of_nil in Hk|].
    by apply Math_max_spec. }
  assert (∀ i, (i < length arr)%nat →
            ∃ s, arr !! i = Some s ∧
              (Map_get m (Z.of_nat i) = Some s
               ∨ Map_get m (Z.of_nat i) = None ∧ (length h ≤ s)%nat)) as Hidx.
  { intros i Hi. apply (Hrest i). apply lookup_seqZ. lia. }
  split; [|split].
  - eapply toBucketSets_loop_live; [done| |done]. by apply Forall_nil.
  - intros i s c Hs. rewrite Hsame, holds_Map_get by done.
    destruct (Hidx i) as (s' & Hs' & Hfrom); [by eapply lookup_lt_Some|].
    assert (s' = s) as -> by congruence.
    destruct Hfrom as [Hget|[Hget Hfresh]].
    + rewrite Hget. naive_solver.
    + rewrite Hget, Set_at_dangling by done. set_solver.
  - intros k c (s & Hin & _).
    assert (k ∈ Map_keys m) as Hk
      by (apply list_elem_of_fmap; by exists (k, s)).
    apply Htop in Hk. destruct (Hidx (Z.to_nat k)) as (s' & Hs' & _); [lia|].
    exists (Z.to_nat k), s'. split; [lia|done].
Qed.

(** X6: [practice] on the array [toBucketSets] makes of a Map returns exactly
    the cards of the buckets whose number [k] has [day mod (k + 1) = 0]. *)
Theorem practice_of_toBucketSets (h : heap) (m : BucketMap) (day : Z) :
  NoDup (Map_keys m) → (∀ k, k ∈ Map_keys m → 0 ≤ k) → Map_live h m →
  0 ≤ day →
  ∃ arr h1 sel h2,
    toBucketSets m h = Ok arr h1 ∧
    practice arr day h1 = Ok sel h2 ∧
    ∀ c, c ∈ Set_at h2 sel ↔ ∃ k, holds h m c k ∧ day `mod` (k + 1) = 0.
Proof.
  intros Hnd Hkeys Hlive Hday.
  destruct (toBucketSets_contents h m Hnd Hkeys Hlive)
    as (arr & h1 & Hrun & Harr & Hidx & Hcover).
  exists arr, h1. eexists _, _. split; [done|].
  split; [by apply practice_Ok|].
  rewrite Set_at_fresh. intros c. rewrite elem_of_scheduled by done. split.
  - intros (i & s & Hs & Hmod & Hc). exists (Z.of_nat i).
    split; [by apply (Hidx i s c Hs)|done].
  - intros (k & Hk & Hmod). destruct (Hcover k c Hk) as (i & s & -> & Hs).
    exists i, s. split; [done|]. split; [done|]. by apply (Hidx i s c Hs).
Qed.

Lemma practice_of_toBucketSets_witness :
  ∃ arr h1 sel h2,
    toBucketSets gap_map gap_heap = Ok arr h1 ∧
    practice arr 3 h1 = Ok sel h2 ∧
    ∀ c, c ∈ Set_at h2 sel ↔ ∃ k, holds gap_heap gap_map c k ∧ 3 `mod` (k + 1) = 0.
Proof.
  apply (practice_of_toBucketSets gap_heap gap_map 3).
  - solve_NoDup.
  - intros k Hk. unfold Map_keys, gap_map in Hk. simpl in Hk.
    apply list_elem_of_singleton in Hk. lia.
  - solve_live.
  - lia.
Defined.

(** X7: [getBucketRange] on the array [toBucketSets] makes of a Map is
    undefined exactly when no bucket of the Map holds a card, and otherwise
    gives the least and the greatest bucket number that holds one. *)
Theorem getBucketRange_of_toBucketSets (h : heap) (m : BucketMap) :
  NoDup (Map_keys m) → (∀ k, k ∈ Map_keys m → 0 ≤ k) → Map_live h m →
  ∃ arr h',
    toBucketSets m h = Ok arr h' ∧
    (getBucketRange h' arr = None ↔ ∀ c k, ¬ holds h m c k) ∧
    (∀ r, getBucketRange h' arr = Some r →
       (∃ c, holds h m c (minBucket r)) ∧
       (∃ c, holds h m c (maxBucket r)) ∧
       ∀ c k, holds h m c k → minBucket r ≤ k ≤ maxBucket r).
Proof.
  intros Hnd Hkeys Hlive.
  destruct (toBucketSets_contents h m Hnd Hkeys Hlive)
    as (arr & h' & Hrun & Harr & Hidx & Hcover).
  exists arr, h'. split; [done|].
  assert (∀ z, (∃ i s, z = Z.of_nat i ∧ arr !! i = Some s ∧ Set_at h' s ≠ ∅)
               ↔ ∃ c, holds h m c z) as Hbucket.
  { intros z. split.
    - intros (i & s & -> & Hs & [c Hc]%set_choose_L). exists c.
      by apply (Hidx i s c Hs).
    - intros [c Hc]. destruct (Hcover z c Hc) as (i & s & -> & Hs).
      exists i, s. split; [done|]. split; [done|].
      apply (Hidx i s c Hs) in Hc. set_solver. }
  unfold getBucketRange.
  pose proof (elem_of_nonEmptyBuckets h' arr) as Hchar.
  destruct (filter _ _) as [|x xs]; split.
  - split; [|done]. intros _ c k Hk.
    assert (k ∈ @nil Z) as []%elem_of_nil.
    apply Hchar, Hbucket. by exists c.
  - done.
  - split; [done|]. intros Hnone.
    assert (x ∈ x :: xs) as [c Hc]%Hchar%Hbucket by left.
    by destruct (Hnone c x).
  - intros r [= <-]. simpl.
    destruct (Math_min_spec x xs) as [Hmin_in Hmin_le].
    destruct (Math_max_spec x xs) as [Hmax_in Hmax_le].
    split; [by apply Hbucket, Hchar|]. split; [by apply Hbucket, Hchar|].
    intros c k Hk. assert (k ∈ x :: xs) by (apply Hchar, Hbucket; by exists c).
    split; [by apply Hmin_le|by apply Hmax_le].
Qed.

Lemma getBucketRange_of_toBucketSets_witness :
  ∃ arr h',
    toBucketSets gap_map gap_heap = Ok arr h' ∧
    (getBucketRange h' arr = None ↔ ∀ c k, ¬ holds gap_heap gap_map c k) ∧
    (∀ r, getBucketRange h' arr = Some r →
       (∃ c, holds gap_heap gap_map c (minBucket r)) ∧
       (∃ c, holds gap_heap gap_map c (maxBucket r)) ∧
       ∀ c k, holds gap_heap gap_map c k → minBucket r ≤ k ≤ maxBucket r).
Proof.
  apply (getBucketRange_of_toBucketSets gap_heap gap_map).
  - solve_NoDup.
  - intros k Hk. unfold Map_keys, gap_map in Hk. simpl in Hk.
    apply list_elem_of_singleton in Hk. lia.
  - solve_live.
Defined.

(** X8: two calls of [toBucketSets] on the same Map give arrays of one
    length that are equal index by index in what their Sets hold; at a key of
    the Map both have the Map's own Set object. *)
Theorem toBucketSets_twice (h : heap) (m : BucketMap) :
  ∃ arr1 h1 arr2 h2,
    toBucketSets m h = Ok arr1 h1 ∧
    toBucketSets m h1 = Ok arr2 h2 ∧
    length arr1 = length arr2 ∧
    ∀ i s1 s2, arr1 !! i = Some s1 → arr2 !! i = Some s2 →
      Set_at h2 s1 = Set_at h2 s2 ∧
      (is_Some (Map_get m (Z.of_nat i)) → s1 = s2 ∧ Map_get m (Z.of_nat i) = Some s1).
Proof.
  unfold toBucketSets.
  set (top := match Map_keys m with [] => -1 | k :: ks => Math_max k ks end).
  destruct (toBucketSets_loop m (seqZ 0 (top + 1)) [] h)
    as (arr1 & h1 & Hrun1 & Hlen1 & Hgrow1 & Hsame1 & Hrest1).
  destruct (toBucketSets_loop m (seqZ 0 (top + 1)) [] h1)
    as (arr2 & h2 & Hrun2 & Hlen2 & Hgrow2 & Hsame2 & Hrest2).
  simpl in Hrun1, Hrun2. exists arr1, h1, arr2, h2.
  split; [done|]. split; [done|]. split; [congruence|].
  intros i s1 s2 Hs1 Hs2.
  assert (seqZ 0 (top + 1) !! i = Some (Z.of_nat i)) as Hi.
  { apply lookup_seqZ. split; [lia|]. apply lookup_lt_Some in Hs1.
    rewrite Hlen1, length_seqZ in Hs1. lia. }
  destruct (Hrest1 i _ Hi) as (s1' & Hs1' & Hfrom1).
  destruct (Hrest2 i _ Hi) as (s2' & Hs2' & Hfrom2).
  assert (s1' = s1) as -> by congruence. assert (s2' = s2) as -> by congruence.
  rewrite !Hsame2, !Hsame1.
  destruct Hfrom1 as [Hget1|[Hget1 Hfresh1]], Hfrom2 as [Hget2|[Hget2 Hfresh2]];
    try congruence.
  - assert (s1 = s2) as -> by congruence. split; [done|]. by intros _.
  - rewrite !Set_at_dangling by lia. split; [done|].
    rewrite Hget1. by intros [? ?].
Qed.

(** ** More on [update] *)

Lemma find_bucket_is_Some (h : heap) (m : BucketMap) card :
  (∃ k, holds h m card k) →
  ∃ b lb, Array_find (λ e, Set_has h e.2 card) m = Some (b, lb).
Proof.
  intros [k Hk].
  destruct (Array_find (λ e, Set_has h e.2 card) m) as [[b lb]|] eqn:Hfind.
  - by exists b, lb.
  - rewrite find_bucket_None in Hfind. by destruct (Hfind k).
Qed.

(** One call of [update], with what it keeps of the shape of the Map and of
    the store: keys stay distinct, references stay allocated, and Sets that
    were distinct objects stay so. *)
Lemma update_step (h : heap) (m : BucketMap) card difficulty b lb :
  NoDup (Map_keys m) → Map_live h m →
  Array_find (λ e, Set_has h e.2 card) m = Some (b, lb) →
  ∃ m' h' ln,
    update m card difficulty h = Ok m' h' ∧
    Map_get m' (Z.max 0 (Z.min (b + adjustment difficulty) (Map_size m - 1)))
      = Some ln ∧
    (m' = m ∨
     Map_get m (Z.max 0 (Z.min (b + adjustment difficulty) (Map_size m - 1))) = None
     ∧ m' = m ++ [(Z.max 0 (Z.min (b + adjustment difficulty) (Map_size m - 1)), ln)]
     ∧ ln = length h) ∧
    (∀ x l, x ∈ Set_at h' l ↔
            (x = card ∧ l = ln) ∨ (x ∈ Set_at h l ∧ ¬ (x = card ∧ l = lb))) ∧
    NoDup (Map_keys m') ∧ Map_live h' m' ∧ (NoDup m.*2 → NoDup m'.*2).
Proof.
  intros Hnd Hlive Hfind.
  destruct (update_found h m card difficulty b lb Hnd Hlive Hfind)
    as (m' & h' & ln & Hupd & Hget & Hshape & Hmem).
  exists m', h', ln. do 4 (split; [done|]).
  pose proof Hlive as Hall. unfold Map_live in Hall. rewrite Forall_forall in Hall.
  destruct Hshape as [->|(Hnone & -> & ->)].
  - split; [done|]. split; [|done].
    apply Map_get_Some_elem in Hget as Hln.
    rewrite (update_existing_bucket h m card difficulty b lb ln) in Hupd by done.
    injection Hupd as <-. eapply Map_live_grow; [|done].
    by rewrite !length_alter.
  - apply Map_get_None in Hnone.
    rewrite (update_created_bucket h m card difficulty b lb) in Hupd
      by (by try apply Map_get_None).
    injection Hupd as <-. split; [|split].
    + unfold Map_keys in *. rewrite fmap_app. apply NoDup_app.
      split; [done|]. split; [|apply NoDup_singleton].
      intros k Hk ->%list_elem_of_singleton. done.
    + unfold Map_live. apply Forall_app. split.
      * eapply Map_live_grow; [|done]. rewrite length_app, length_alter. lia.
      * apply Forall_singleton. simpl. rewrite length_app, length_alter. simpl. lia.
    + intros Hsets. rewrite fmap_app. apply NoDup_app.
      split; [done|]. split; [|apply NoDup_singleton].
      intros l ([k l'] & Heq & Hl)%list_elem_of_fmap Hfresh%list_elem_of_singleton.
      apply Hall in Hl. simpl in *. lia.
Qed.

(** X9: [update] moves the reviewed card and no other: every other card is
    in the same buckets of the Map returned as of the Map given, and the
    reviewed card is still in the Map. *)
Theorem update_moves_only_the_card (h : heap) (m : BucketMap) card difficulty :
  NoDup (Map_keys m) → Map_live h m → (∃ k, holds h m card k) →
  ∃ m' h',
    update m card difficulty h = Ok m' h' ∧
    (∀ x k, x ≠ card → holds h' m' x k ↔ holds h m x k) ∧
    (∃ k, holds h' m' card k).
Proof.
  intros Hnd Hlive (b & lb & Hfind)%find_bucket_is_Some.
  destruct (update_step h m card difficulty b lb Hnd Hlive Hfind)
    as (m' & h' & ln & Hupd & Hget & Hshape & Hmem & _).
  exists m', h'. split; [done|]. split.
  - intros x k Hx. split; intros (l & Hin & Hl); exists l.
    + apply Hmem in Hl as [[? _]|[Hl _]]; [done|]. split; [|done].
      destruct Hshape as [->|(_ & -> & ->)]; [done|].
      apply elem_of_app in Hin as [?|Hin%list_elem_of_singleton]; [done|].
      simplify_eq. rewrite Set_at_dangling in Hl by lia. set_solver.
    + split.
      * destruct Hshape as [->|(_ & -> & _)]; [done|]. apply elem_of_app. by left.
      * apply Hmem. right. split; [done|]. by intros [? _].
  - eexists. exists ln. split; [by apply Map_get_Some_elem|]. apply Hmem. by left.
Qed.

Lemma update_moves_only_the_card_witness :
  ∃ m' h',
    update easy_test_map card1 Easy easy_test_heap = Ok m' h' ∧
    (∀ x k, x ≠ card1 → holds h' m' x k ↔ holds easy_test_heap easy_test_map x k) ∧
    (∃ k, holds h' m' card1 k).
Proof.
  apply (update_moves_only_the_card easy_test_heap easy_test_map card1 Easy).
  - solve_NoDup.
  - solve_live.
  - exists 0, 0%nat. split; [left|]. unfold Set_at. simpl. set_solver.
Defined.

(** X10: [update] removes no bucket and reorders none: the Map returned is
    the Map given, or the Map given with one bucket added last, a bucket
    whose number was no key and is below the key count, and whose Set is new
    and holds the reviewed card alone. *)
Theorem update_adds_at_most_one_bucket (h : heap) (m : BucketMap) card difficulty :
  NoDup (Map_keys m) → Map_live h m → (∃ k, holds h m card k) →
  ∃ m' h',
    update m card difficulty h = Ok m' h' ∧
    (m' = m ∨
     ∃ k s, m' = m ++ [(k, s)] ∧ (k ∉ Map_keys m) ∧ 0 ≤ k < Map_size m ∧
            s = length h ∧ Set_at h' s = {[card]}).
Proof.
  intros Hnd Hlive Hex.
  destruct (find_bucket_is_Some _ _ _ Hex) as (b & lb & Hfind).
  destruct Hex as [k0 Hk0%holds_nonempty].
  destruct (update_step h m card difficulty b lb Hnd Hlive Hfind)
    as (m' & h' & ln & Hupd & Hget & Hshape & Hmem & _).
  exists m', h'. split; [done|].
  destruct Hshape as [->|(Hnone & -> & ->)]; [by left|]. right.
  eexists _, _. split; [done|]. split; [by apply Map_get_None|].
  split; [lia|]. split; [done|].
  apply set_eq. intros x. rewrite Hmem, Set_at_dangling by done. set_solver.
Qed.

Lemma update_adds_at_most_one_bucket_witness :
  ∃ m' h',
    update sparse_map card1 Easy sparse_heap = Ok m' h' ∧
    (m' = sparse_map ∨
     ∃ k s, m' = sparse_map ++ [(k, s)] ∧ (k ∉ Map_keys sparse_map) ∧
            0 ≤ k < Map_size sparse_map ∧
            s = length sparse_heap ∧ Set_at h' s = {[card1]}).
Proof.
  apply (update_adds_at_most_one_bucket sparse_heap sparse_map card1 Easy).
  - solve_NoDup.
  - solve_live.
  - exists 5, 0%nat. split; [left|]. unfold Set_at. simpl. set_solver.
Defined.

(** X11: when the clamped target is the bucket the card is in (Wrong on a
    card whose bucket number is below the key count, Hard in bucket 0, Easy
    in bucket [size - 1]), [update] returns the Map given and the store is as
    it was. *)
Theorem update_same_bucket_no_change (h : heap) (m : BucketMap) card difficulty b :
  NoDup (Map_keys m) →
  holds h m card b → (∀ b', holds h m card b' → b' = b) →
  Z.max 0 (Z.min (b + adjustment difficulty) (Map_size m - 1)) = b →
  update m card difficulty h = Ok m h.
Proof.
  intros Hnd Hb Huniq Hsame.
  destruct (find_current_bucket _ _ _ _ Hb Huniq) as [lb Hfind].
  destruct (Array_find_Some _ _ _ Hfind) as [Hin Hhas%Set_has_true].
  simpl in Hhas.
  rewrite (update_existing_bucket h m card difficulty b lb lb Hnd Hfind)
    by (rewrite Hsame; by apply Map_get_elem).
  f_equal. rewrite list_alter_alter_eq. apply list_eq. intros i.
  destruct (decide (i = lb)) as [->|Hne]; [|by rewrite list_lookup_alter_ne].
  rewrite list_lookup_alter_eq. unfold Set_at in Hhas.
  destruct (h !! lb) as [S0|]; simpl in *; [|done].
  f_equal. apply set_eq. intros x. destruct (decide (x = card)); set_solver.
Qed.

Lemma update_same_bucket_no_change_witness :
  update easy_test_map card1 Hard easy_test_heap = Ok easy_test_map easy_test_heap.
Proof.
  apply (update_same_bucket_no_change easy_test_heap easy_test_map card1 Hard 0).
  - solve_NoDup.
  - exists 0%nat. split; [left|]. unfold Set_at. simpl. set_solver.
  - intros b' Hb'. split_holds Hb'.
  - reflexivity.
Defined.

(** X12: a card whose bucket number is at least the key count goes to bucket
    [size - 1], below the one it was in, and leaves that one, whatever the
    difficulty: Wrong and Hard move it there as Easy does. *)
Theorem update_above_key_count_any_difficulty (h : heap) (m : BucketMap)
    card difficulty b :
  NoDup (Map_keys m) → Map_live h m →
  holds h m card b → (∀ b', holds h m card b' → b' = b) →
  Map_size m ≤ b →
  ∃ m' h',
    update m card difficulty h = Ok m' h' ∧
    holds h' m' card (Map_size m - 1) ∧ Map_size m - 1 < b ∧
    ¬ holds h' m' card b ∧
    (NoDup m.*2 → ∀ k, holds h' m' card k ↔ k = Map_size m - 1).
Proof.
  intros Hnd Hlive Hb Huniq Hsize.
  destruct (update_where_card_is h m card difficulty b Hnd Hlive Hb Huniq)
    as (m' & h' & Hupd & Hthere & Hleft & Halone).
  apply holds_nonempty in Hb.
  replace (Z.max 0 (Z.min (b + adjustment difficulty) (Map_size m - 1)))
    with (Map_size m - 1) in Hthere, Hleft, Halone
    by (destruct difficulty; simpl; lia).
  exists m', h'. split; [done|]. split; [done|]. split; [lia|].
  split; [apply Hleft; lia|done].
Qed.

Lemma update_above_key_count_any_difficulty_witness :
  ∃ m' h',
    update sparse_map card1 Wrong sparse_heap = Ok m' h' ∧
    holds h' m' card1 (Map_size sparse_map - 1) ∧ Map_size sparse_map - 1 < 5 ∧
    ¬ holds h' m' card1 5 ∧
    (NoDup sparse_map.*2 → ∀ k, holds h' m' card1 k ↔ k = Map_size sparse_map - 1).
Proof.
  apply (update_above_key_count_any_difficulty sparse_heap sparse_map card1 Wrong 5).
  - solve_NoDup.
  - solve_live.
  - exists 0%nat. split; [left|]. unfold Set_at. simpl. set_solver.
  - intros b' Hb'. split_holds Hb'.
  - unfold Map_size, sparse_map. simpl. lia.
Defined.

(** X13: [update] keeps a Map fit for the next call: its keys stay distinct,
    its Sets stay allocated, and Sets that were distinct objects, one to a
    key, stay so, a new bucket getting a Set of its own. *)
Theorem update_keeps_sets_distinct (h : heap) (m : BucketMap) card difficulty :
  NoDup (Map_keys m) → NoDup m.*2 → Map_live h m → (∃ k, holds h m card k) →
  ∃ m' h',
    update m card difficulty h = Ok m' h' ∧
    NoDup (Map_keys m') ∧ NoDup m'.*2 ∧ Map_live h' m'.
Proof.
  intros Hnd Hsets Hlive (b & lb & Hfind)%find_bucket_is_Some.
  destruct (update_step h m card difficulty b lb Hnd Hlive Hfind)
    as (m' & h' & ln & Hupd & _ & _ & _ & Hnd' & Hlive' & Hsets').
  exists m', h'. auto.
Qed.

Lemma update_keeps_sets_distinct_witness :
  ∃ m' h',
    update sparse_map card1 Easy sparse_heap = Ok m' h' ∧
    NoDup (Map_keys m') ∧ NoDup m'.*2 ∧ Map_live h' m'.
Proof.
  apply (update_keeps_sets_distinct sparse_heap sparse_map card1 Easy).
  - solve_NoDup.
  - unfold sparse_map. simpl. solve_NoDup.
  - solve_live.
  - exists 5, 0%nat. split; [left|]. unfold Set_at. simpl. set_solver.
Defined.

(** X14: Easy and then Hard bring a card back: when each card is in one
    bucket, each key has a Set of its own and the card's bucket [b] has
    [0 ≤ b] and [b + 1] below the key count, the two calls leave every card
    in the buckets it was in. *)
Theorem update_easy_then_hard (h : heap) (m : BucketMap) card b :
  NoDup (Map_keys m) → NoDup m.*2 → Map_live h m → one_bucket_each h m →
  holds h m card b → 0 ≤ b → b + 1 < Map_size m →
  ∃ m1 h1 m2 h2,
    update m card Easy h = Ok m1 h1 ∧
    update m1 card Hard h1 = Ok m2 h2 ∧
    holds h1 m1 card (b + 1) ∧
    ∀ x k, holds h2 m2 x k ↔ holds h m x k.
Proof.
  intros Hnd Hsets Hlive Hone Hb Hlow Hhigh.
  assert (∀ b', holds h m card b' → b' = b) as Huniq
    by (intros b' Hb'; by apply (Hone card)).
  destruct (find_current_bucket _ _ _ _ Hb Huniq) as [lb Hfind].
  destruct (Array_find_Some _ _ _ Hfind) as [Hin Hhas%Set_has_true].
  simpl in Hhas.
  pose proof Hlive as Hall. unfold Map_live in Hall. rewrite Forall_forall in Hall.
  assert (∀ k l, (k, l) ∈ m → card ∈ Set_at h l → l = lb) as Hcard.
  { intros k l Hkl Hc. assert (k = b) as -> by (apply Huniq; by exists l).
    apply (Map_get_elem m b l Hnd) in Hkl.
    apply (Map_get_elem m b lb Hnd) in Hin. congruence. }
  (* Easy: to bucket [b + 1] *)
  destruct (update_step h m card Easy b lb Hnd Hlive Hfind)
    as (m1 & h1 & ln1 & Hupd1 & Hget1 & Hshape1 & Hmem1 & Hnd1 & Hlive1 & Hsets1).
  simpl in Hget1, Hshape1.
  replace (Z.max 0 (Z.min (b + 1) (Map_size m - 1))) with (b + 1)
    in Hget1, Hshape1 by lia.
  specialize (Hsets1 Hsets).
  assert (∀ k l, (k, l) ∈ m → (k, l) ∈ m1) as Hsub.
  { intros k l Hkl. destruct Hshape1 as [->|(_ & -> & _)]; [done|].
    apply elem_of_app. by left. }
  assert (∀ k l x, (k, l) ∈ m1 → x ∈ Set_at h l → (k, l) ∈ m) as Hold.
  { intros k l x Hkl Hx. destruct Hshape1 as [->|(_ & -> & ->)]; [done|].
    apply elem_of_app in Hkl as [?|Hkl%list_elem_of_singleton]; [done|].
    simplify_eq. rewrite Set_at_dangling in Hx by lia. set_solver. }
  assert (Map_size m ≤ Map_size m1) as Hsize1.
  { destruct Hshape1 as [->|(_ & -> & _)]; [done|].
    unfold Map_size. rewrite length_app. lia. }
  assert (holds h1 m1 card (b + 1)) as Hb1.
  { exists ln1. split; [by apply Map_get_Some_elem|]. apply Hmem1. by left. }
  assert (∀ b', holds h1 m1 card b' → b' = b + 1) as Huniq1.
  { intros b' (l & Hkl & Hl). apply Hmem1 in Hl as [[_ ->]|[Hl Hnot]].
    - apply (NoDup_snd_key m1 b' (b + 1) ln1 Hsets1 Hkl).
      by apply Map_get_Some_elem.
    - destruct Hnot. split; [done|]. apply (Hcard b'); [|done]. by eapply Hold. }
  destruct (find_current_bucket _ _ _ _ Hb1 Huniq1) as [lb1 Hfind1].
  assert (lb1 = ln1) as ->.
  { destruct (Array_find_Some _ _ _ Hfind1) as [Hin1 _].
    apply (Map_get_elem m1 _ _ Hnd1) in Hin1. congruence. }
  (* Hard: back to bucket [b] *)
  destruct (update_step h1 m1 card Hard (b + 1) ln1 Hnd1 Hlive1 Hfind1)
    as (m2 & h2 & ln2 & Hupd2 & Hget2 & Hshape2 & Hmem2 & _).
  simpl in Hget2, Hshape2.
  replace (Z.max 0 (Z.min (b + 1 + -1) (Map_size m1 - 1))) with b
    in Hget2, Hshape2 by lia.
  assert (Map_get m1 b = Some lb) as Hgetb
    by (apply Map_get_elem; [done|by apply Hsub]).
  destruct Hshape2 as [->|(Hnone & _)]; [|congruence].
  assert (ln2 = lb) as -> by congruence.
  exists m1, h1, m1, h2. do 3 (split; [done|]).
  intros x k. split; intros (l & Hkl & Hl).
  - apply Hmem2 in Hl as [[-> ->]|[Hl Hnot2]].
    + exists lb. split; [|done]. by eapply Hold.
    + apply Hmem1 in Hl as [[-> ->]|[Hl Hnot1]]; [by destruct Hnot2|].
      exists l. split; [by eapply Hold|done].
  - exists l. split; [by apply Hsub|]. apply Hmem2.
    destruct (decide (x = card)) as [->|Hx].
    + left. split; [done|]. by apply (Hcard k).
    + right. split; [|by intros [? _]]. apply Hmem1. right.
      split; [done|]. by intros [? _].
Qed.

Lemma update_easy_then_hard_witness :
  ∃ m1 h1 m2 h2,
    update three_bucket_map card1 Easy three_buckets = Ok m1 h1 ∧
    update m1 card1 Hard h1 = Ok m2 h2 ∧
    holds h1 m1 card1 (0 + 1) ∧
    ∀ x k, holds h2 m2 x k ↔ holds three_buckets three_bucket_map x k.
Proof.
  apply (update_easy_then_hard three_buckets three_bucket_map card1 0).
  - solve_NoDup.
  - unfold three_bucket_map. simpl. solve_NoDup.
  - solve_live.
  - intros x k1 k2 H1 H2. split_holds H1; split_holds H2.
  - exists 0%nat. split; [left|]. unfold Set_at. simpl. set_solver.
  - lia.
  - unfold Map_size, three_bucket_map. simpl. lia.
Defined.

(** ** More on [getHint] *)

(** X15: [getHint] never returns the empty string, and what it returns never
    begins with white space. *)
Theorem getHint_not_empty (card : Flashcard) :
  getHint card ≠ [] ∧
  ∀ u, head (getHint card) = Some u → JsString.is_white_space u = false.
Proof.
  unfold getHint, JsString.trim.
  destruct (trimStart_spec (hint card)) as (pre & _ & _ & Hhead).
  destruct (trimEnd_spec (JsString.trimStart (hint card)))
    as (post & _ & _ & _ & Hhead').
  destruct (JsString.trimEnd (JsString.trimStart (hint card))) as [|u t] eqn:Ht;
    simpl.
  - split; [done|]. by intros u [= <-].
  - split; [done|]. intros ? [= <-]. by apply Hhead, Hhead'.
Qed.

Lemma trimStart_id (s : JsString.t) :
  (∀ u, head s = Some u → JsString.is_white_space u = false) →
  JsString.trimStart s = s.
Proof.
  destruct s as [|u s]; simpl; [done|]. intros Hu. by rewrite (Hu u).
Qed.

Lemma trimEnd_id (s : JsString.t) :
  (∀ u, last s = Some u → JsString.is_white_space u = false) →
  JsString.trimEnd s = s.
Proof.
  induction s as [|u s IH]; simpl; [done|]. intros Hlast.
  destruct s as [|v s].
  - simpl. by rewrite (Hlast u).
  - rewrite IH by (intros w Hw; apply Hlast; by rewrite last_cons_cons).
    done.
Qed.

(** X16: a hint that is not empty and neither begins nor ends with white
    space is returned as it is. *)
Theorem getHint_hint_as_given (card : Flashcard) :
  hint card ≠ [] →
  (∀ u, head (hint card) = Some u → JsString.is_white_space u = false) →
  (∀ u, last (hint card) = Some u → JsString.is_white_space u = false) →
  getHint card = hint card.
Proof.
  intros Hne Hhead Hlast. unfold getHint, JsString.trim.
  rewrite trimStart_id, trimEnd_id by done.
  unfold JsString.or_else. by destruct (hint card).
Qed.

Lemma getHint_hint_as_given_witness :
  getHint annihilation_card = hint annihilation_card.
Proof.
  apply (getHint_hint_as_given annihilation_card).
  - done.
  - by intros u [= <-].
  - by intros u [= <-].
Defined.

(** ** An array of [toBucketSets] across a later [update] *)

(** X17: the array shares the Sets of the Map, so it follows an [update]
    made after it: when [update] creates no bucket, the array made before the
    call shows, index by index, the buckets as they are after it. *)
Theorem toBucketSets_array_follows_update (h : heap) (m : BucketMap) card difficulty :
  NoDup (Map_keys m) → Map_live h m → (∃ k, holds h m card k) →
  ∃ arr h1 m' h2,
    toBucketSets m h = Ok arr h1 ∧
    update m card difficulty h1 = Ok m' h2 ∧
    (m' = m →
     ∀ i s x, arr !! i = Some s → x ∈ Set_at h2 s ↔ holds h2 m' x (Z.of_nat i)).
Proof.
  intros Hnd Hlive [k0 Hk0]. unfold toBucketSets.
  set (top := match Map_keys m with [] => -1 | k :: ks => Math_max k ks end).
  destruct (toBucketSets_loop m (seqZ 0 (top + 1)) [] h)
    as (arr & h1 & Hrun & Hlen & Hgrow & Hsame & Hrest).
  simpl in Hrun. rewrite length_seqZ in Hlen.
  assert (Map_live h1 m) as Hlive1 by by eapply Map_live_grow.
  assert (∃ k, holds h1 m card k) as Hex1.
  { exists k0. destruct Hk0 as (l & ? & ?). exists l. by rewrite Hsame. }
  destruct (find_bucket_is_Some _ _ _ Hex1) as (b & lb & Hfind).
  destruct (update_step h1 m card difficulty b lb Hnd Hlive1 Hfind)
    as (m' & h2 & ln & Hupd & Hget & _ & Hmem & _).
  exists arr, h1, m', h2. split; [done|]. split; [done|].
  intros -> i s x Hs.
  assert (seqZ 0 (top + 1) !! i = Some (Z.of_nat i)) as Hi.
  { apply lookup_seqZ. split; [lia|]. apply lookup_lt_Some in Hs. lia. }
  destruct (Hrest i _ Hi) as (s' & Hs' & Hfrom).
  assert (s' = s) as -> by congruence.
  rewrite holds_Map_get by done.
  destruct Hfrom as [Hkey|[Hkey Hfresh]].
  - rewrite Hkey. naive_solver.
  - rewrite Hkey. split; [|by intros (? & ? & _)].
    intros [[_ ->]|[Hx _]]%Hmem.
    + apply Map_get_Some_elem in Hget.
      unfold Map_live in Hlive. rewrite Forall_forall in Hlive.
      apply Hlive in Hget. simpl in Hget. lia.
    + rewrite Hsame, Set_at_dangling in Hx by done. set_solver.
Qed.

Lemma toBucketSets_array_follows_update_witness :
  ∃ arr h1 m' h2,
    toBucketSets easy_test_map easy_test_heap = Ok arr h1 ∧
    update easy_test_map card1 Easy h1 = Ok m' h2 ∧
    (m' = easy_test_map →
     ∀ i s x, arr !! i = Some s → x ∈ Set_at h2 s ↔ holds h2 m' x (Z.of_nat i)).
Proof.
  apply (toBucketSets_array_follows_update easy_test_heap easy_test_map card1 Easy).
  - solve_NoDup.
  - solve_live.
  - exists 0, 0%nat. split; [left|]. unfold Set_at. simpl. set_solver.
Defined.
